(** * MusicTools: the abc reader of [scripts/lib/abc.py]

    A shallow embedding of the abc notation reader used by the music-box
    tape template maker, and the properties of it that the design
    document states.

    Conventions of the embedding.
    - Python [str] is [string]; the text is taken to be ASCII, which is
      the only alphabet the regular expressions of the reader name. The
      file at a path is given by its text, line ends already translated
      to line feeds as Python's text mode does.
    - A Python exception is a value of [exn]; a function that may raise
      returns a [result].
    - A Python list is a [list], kept in the order of the source; the
      negative indices [-1] and [-2] are read through [unsnoc].
    - Objects mutated in place ([duration], [accidental], [value]) are
      rebuilt; no object of the reader is reachable from two places, so
      no aliasing is lost. *)

From Stdlib Require Import ZArith List String Ascii Bool Lia.
Import ListNotations.
Local Open Scope string_scope.
Local Open Scope list_scope.
Local Open Scope Z_scope.

(** ** Exceptions *)

Inductive exn : Type :=
| ValueError (msg : string)
| AttributeError (attr : string)
| IndexError.

Inductive result (A : Type) : Type :=
| Ok (a : A)
| Raise (e : exn).

Arguments Ok {A} a.
Arguments Raise {A} e.

Definition bind {A B : Type} (r : result A) (k : A -> result B) : result B :=
  match r with
  | Ok a => k a
  | Raise e => Raise e
  end.

Notation "x <- r ;; k" := (bind r (fun x => k))
  (at level 61, r at next level, right associativity).

(** [for x in l: x := f x], stopping at the first exception. *)
Fixpoint mapM {A B : Type} (f : A -> result B) (l : list A) : result (list B) :=
  match l with
  | [] => Ok []
  | x :: t => y <- f x ;; ys <- mapM f t ;; Ok (y :: ys)
  end.

(** ** Characters and strings, as Python's [str] methods and [re] classes
    act on ASCII text *)

Definition code (c : ascii) : N := N_of_ascii c.

Definition between (lo hi : N) (c : ascii) : bool :=
  ((lo <=? code c) && (code c <=? hi))%N.

(** [[A-Z]], [[a-z]], [[a-zA-Z]], [[0-9]] *)
Definition is_upper (c : ascii) : bool := between 65 90 c.
Definition is_lower (c : ascii) : bool := between 97 122 c.
Definition is_alpha (c : ascii) : bool := is_upper c || is_lower c.
Definition is_digit (c : ascii) : bool := between 48 57 c.

(** [str.isspace] and [\s]: tab, line feed, vertical tab, form feed,
    carriage return, the four separators 28..31, and the space. *)
Definition is_space (c : ascii) : bool := between 9 13 c || between 28 32 c.

(** [[\^=_]] *)
Definition is_accidental_mark (c : ascii) : bool :=
  Ascii.eqb c "^" || Ascii.eqb c "=" || Ascii.eqb c "_".

(** [[,']] *)
Definition is_octave_mark (c : ascii) : bool :=
  Ascii.eqb c "," || Ascii.eqb c "'".

Definition lower_char (c : ascii) : ascii :=
  if is_upper c then ascii_of_N (code c + 32) else c.

Definition upper_char (c : ascii) : ascii :=
  if is_lower c then ascii_of_N (code c - 32) else c.

Fixpoint map_string (f : ascii -> ascii) (s : string) : string :=
  match s with
  | EmptyString => EmptyString
  | String c t => String (f c) (map_string f t)
  end.

(** [str.lower], [str.upper] *)
Definition lower : string -> string := map_string lower_char.
Definition upper : string -> string := map_string upper_char.

(** [len] *)
Definition len (s : string) : Z := Z.of_nat (String.length s).

Fixpoint lstrip (s : string) : string :=
  match s with
  | String c t => if is_space c then lstrip t else s
  | EmptyString => EmptyString
  end.

Fixpoint rstrip (s : string) : string :=
  match s with
  | EmptyString => EmptyString
  | String c t =>
      match rstrip t with
      | EmptyString => if is_space c then EmptyString else String c EmptyString
      | t' => String c t'
      end
  end.

(** [str.strip] *)
Definition strip (s : string) : string := rstrip (lstrip s).

(** [str.split(sep)] for a one-character separator: every occurrence
    splits, so the result is never empty and may hold empty pieces. *)
Fixpoint split (sep : ascii) (s : string) : list string :=
  match s with
  | EmptyString => [EmptyString]
  | String c t =>
      if Ascii.eqb c sep then EmptyString :: split sep t
      else match split sep t with
           | h :: r => String c h :: r
           | [] => [String c EmptyString]
           end
  end.

(** [''.join] *)
Definition join (l : list string) : string :=
  fold_right String.append EmptyString l.

(** [s in l] for a list of strings *)
Definition str_in (s : string) (l : list string) : bool :=
  existsb (String.eqb s) l.

(** [int(s)] on a string of decimal digits, which is all the reader
    passes to it: the duration group of a match, one digit when it is
    not empty. Python's [int] also reads a sign, blanks around the
    number and underscores between digits; those texts never reach it
    here and are given a [ValueError]. *)
Definition digit_value (c : ascii) : Z := Z.of_N (code c) - 48.

Fixpoint int_digits (acc : Z) (s : string) : result Z :=
  match s with
  | EmptyString => Ok acc
  | String c t =>
      if is_digit c then int_digits (10 * acc + digit_value c) t
      else Raise (ValueError "invalid literal for int()")
  end.

Definition int (s : string) : result Z :=
  match s with
  | EmptyString => Raise (ValueError "invalid literal for int()")
  | _ => int_digits 0 s
  end.

(** [l[:-1]] with [l[-1]]; [None] when the list is empty. *)
Fixpoint unsnoc {A : Type} (l : list A) : option (list A * A) :=
  match l with
  | [] => None
  | x :: t =>
      match unsnoc t with
      | None => Some ([], x)
      | Some (i, z) => Some (x :: i, z)
      end
  end.

(** ** class Accidental *)

Module Accidental.

(** [_value] is the text the object was built from; [value] is the
    semitone delta, [None] while the attribute is not assigned. *)
Record t : Type := mk { _value : string; value : option Z }.

Definition __init__ (v : string) : t :=
  mk v (if String.eqb v "_" then Some (-1)
        else if String.eqb v "^" then Some 1
        else if String.eqb v "=" then Some 0
        else None).

(** The read [self.value]. *)
Definition get_value (a : t) : result Z :=
  match value a with
  | Some d => Ok d
  | None => Raise (AttributeError "value")
  end.

(** [__repr__]: the three tests read [self.value] in turn. *)
Definition __repr__ (self : t) : result string :=
  v <- get_value self ;;
  if v =? -1 then Ok "flat"
  else if v =? 1 then Ok "sharp"
  else if v =? 0 then Ok "natural"
  else Ok "".

End Accidental.

(** ** class MusicObject, with its subclasses Rest and Note *)

Module MusicObject.

(** A [Rest] has a [name] (always the text Rest) and a [duration]; a
    [Note] has besides them an [accidental] ([None] or an Accidental)
    and a [value]. *)
Inductive t : Type :=
| Rest (duration : Z)
| Note (name : string) (accidental : option Accidental.t)
       (duration : Z) (value : Z).

Definition name (o : t) : string :=
  match o with
  | Rest _ => "Rest"
  | Note n _ _ _ => n
  end.

Definition duration (o : t) : Z :=
  match o with
  | Rest d => d
  | Note _ _ d _ => d
  end.

(** [o.duration = d] *)
Definition set_duration (d : Z) (o : t) : t :=
  match o with
  | Rest _ => Rest d
  | Note n a _ v => Note n a d v
  end.

(** The read [o.accidental]; a Rest has no such attribute. *)
Definition accidental (o : t) : result (option Accidental.t) :=
  match o with
  | Rest _ => Raise (AttributeError "accidental")
  | Note _ a _ _ => Ok a
  end.

(** The read [o.value]; a Rest has no such attribute. *)
Definition value (o : t) : result Z :=
  match o with
  | Rest _ => Raise (AttributeError "value")
  | Note _ _ _ v => Ok v
  end.

(** [MusicObject.__init__]: the duration it stores. *)
Definition __init__ (duration : string) : result Z :=
  if String.eqb duration "" then Ok 1 else int duration.

End MusicObject.

Module Rest.

Definition __init__ (duration : string) : result MusicObject.t :=
  d <- MusicObject.__init__ duration ;;
  Ok (MusicObject.Rest d).

End Rest.

Module Note.

Definition base_notes : list ascii :=
  ["C"; "D"; "E"; "F"; "G"; "A"; "B"; "c"; "d"; "e"; "f"; "g"; "a"; "b"]%char.

Definition base_values : list Z :=
  [40; 42; 44; 45; 47; 49; 51; 52; 54; 56; 57; 59; 61; 63].

(** [list.index] *)
Fixpoint index (n : ascii) (l : list ascii) : result nat :=
  match l with
  | [] => Raise (ValueError "is not in list")
  | x :: r => if Ascii.eqb x n then Ok O else i <- index n r ;; Ok (S i)
  end.

(** [l[i]] for an index that is not negative *)
Definition getitem (l : list Z) (i : nat) : result Z :=
  match nth_error l i with
  | Some v => Ok v
  | None => Raise IndexError
  end.

(** One round of the loop over [self.name[1:]]. *)
Definition staff_step (v : Z) (c : ascii) : Z :=
  if Ascii.eqb c "," then v - 12
  else if Ascii.eqb c "'" then v + 12
  else v.

Fixpoint staff_adjust (v : Z) (tail : string) : Z :=
  match tail with
  | EmptyString => v
  | String c r => staff_adjust (staff_step v c) r
  end.

(** The body of [_update_value]: the value it assigns, from the name and
    the accidental alone. *)
Definition compute_value (name : string) (accidental : option Accidental.t)
  : result Z :=
  match name with
  | EmptyString => Raise IndexError
  | String n tail =>
      i <- index n base_notes ;;
      b <- getitem base_values i ;;
      let v := staff_adjust b tail in
      match accidental with
      | None => Ok v
      | Some a => d <- Accidental.get_value a ;; Ok (v + d)
      end
  end.

Definition _update_value (self : MusicObject.t) : result MusicObject.t :=
  match self with
  | MusicObject.Rest _ => Raise (AttributeError "_update_value")
  | MusicObject.Note n a d _ =>
      v <- compute_value n a ;;
      Ok (MusicObject.Note n a d v)
  end.

Definition __init__ (name : string) (accidental : option Accidental.t)
  (duration : string) : result MusicObject.t :=
  d <- MusicObject.__init__ duration ;;
  _update_value (MusicObject.Note name accidental d 0).

Definition set_accidental (self : MusicObject.t) (accidental : Accidental.t)
  : result MusicObject.t :=
  match self with
  | MusicObject.Rest _ => Raise (AttributeError "set_accidental")
  | MusicObject.Note n _ d v =>
      _update_value (MusicObject.Note n (Some accidental) d v)
  end.

Definition __eq__ (self other : MusicObject.t) : result bool :=
  a <- MusicObject.value self ;;
  b <- MusicObject.value other ;;
  Ok (a =? b).

Definition __lt__ (self other : MusicObject.t) : result bool :=
  a <- MusicObject.value self ;;
  b <- MusicObject.value other ;;
  Ok (a <? b).

(** [__gt__] as [functools.total_ordering] derives it from [__lt__]:
    not smaller, and not equal. *)
Definition __gt__ (self other : MusicObject.t) : result bool :=
  lt <- __lt__ self other ;;
  if lt then Ok false
  else eq <- __eq__ self other ;; Ok (negb eq).

End Note.

(** ** class InformationField *)

(** What a field's [value] holds at run time: the reader stores there the
    result of [re.Match.groups], a tuple of strings, and
    [_propagate_key_signature] subscripts it; a caller of [AbcFile] may
    as well store a [str]. *)
Inductive pyval : Type :=
| PyStr (s : string)
| PyTuple (items : list string).

(** [v[i]] for an index that is not negative: an item of a tuple, or the
    one-character string at a position of a string. *)
Definition subscript (v : pyval) (i : nat) : result string :=
  match v with
  | PyStr s =>
      match String.get i s with
      | Some c => Ok (String c EmptyString)
      | None => Raise IndexError
      end
  | PyTuple items =>
      match nth_error items i with
      | Some s => Ok s
      | None => Raise IndexError
      end
  end.

Module InformationField.

Record t : Type := mk { name : string; value : pyval }.

Definition __init__ (name : string) (value : pyval) : t := mk name value.

End InformationField.

(** ** class AbcFile *)

(** [for x in l: acc := f acc x], stopping at the first exception. *)
Fixpoint foldM {A B : Type} (f : A -> B -> result A) (l : list B) (acc : A)
  : result A :=
  match l with
  | [] => Ok acc
  | x :: t => acc' <- f acc x ;; foldM f t acc'
  end.

Module AbcFile.

Record t : Type :=
  mk { fields : list InformationField.t; music : list MusicObject.t }.

(** The body of the inner loop, for one [n] of [self.music]. The test
    on the name comes first and [and] does not read [n.accidental]
    when it fails. *)
Definition mark_note (mark note : string) (n : MusicObject.t)
  : result MusicObject.t :=
  if String.eqb (lower (MusicObject.name n)) note then
    a <- MusicObject.accidental n ;;
    match a with
    | None => Note.set_accidental n (Accidental.__init__ mark)
    | Some _ => Ok n
    end
  else Ok n.

(** The body of the outer loop, for one [a] of [accidentals[1:]]. *)
Definition apply_token (music : list MusicObject.t) (a : string)
  : result (list MusicObject.t) :=
  if negb (len a =? 2) then Ok music
  else
    mark <- subscript (PyStr a) 0 ;;
    letter <- subscript (PyStr a) 1 ;;
    mapM (mark_note mark (lower letter)) music.

Definition key_error : exn :=
  ValueError "Key signature must be present and must be C with accidentals".

Definition _propagate_key_signature (fields : list InformationField.t)
  (music : list MusicObject.t) : result (list MusicObject.t) :=
  match filter (fun f => String.eqb (InformationField.name f) "K") fields with
  | [] => Raise IndexError
  | f :: _ =>
      signature <- subscript (InformationField.value f) 1 ;;
      match signature with
      | EmptyString => Raise key_error
      | String c _ =>
          if negb (Ascii.eqb c "C") then Raise key_error
          else foldM apply_token (tl (split " " signature)) music
      end
  end.

Definition __init__ (fields : list InformationField.t)
  (music : list MusicObject.t) : result t :=
  music' <- _propagate_key_signature fields music ;;
  Ok (mk fields music').

End AbcFile.

(** ** strip_decorators *)

Fixpoint filter_string (p : ascii -> bool) (s : string) : string :=
  match s with
  | EmptyString => EmptyString
  | String c t => if p c then String c (filter_string p t) else filter_string p t
  end.

(** The characters of the class [[a-zA-Z0-9\s\/\-\^_,'=\[\]]], the ones
    the first substitution keeps. *)
Definition kept (c : ascii) : bool :=
  is_alpha c || is_digit c || is_space c
  || Ascii.eqb c "/" || Ascii.eqb c "-" || Ascii.eqb c "^" || Ascii.eqb c "_"
  || Ascii.eqb c "," || Ascii.eqb c "'" || Ascii.eqb c "="
  || Ascii.eqb c "[" || Ascii.eqb c "]".

(** [re.sub(" +", " ", content)]: of a run of spaces one is left. *)
Fixpoint normalize_spaces (s : string) : string :=
  match s with
  | EmptyString => EmptyString
  | String c t =>
      match t with
      | String c' _ =>
          if Ascii.eqb c " " && Ascii.eqb c' " " then normalize_spaces t
          else String c (normalize_spaces t)
      | EmptyString => String c EmptyString
      end
  end.

(** [content.replace("- ", "-")] *)
Fixpoint join_ties (s : string) : string :=
  match s with
  | EmptyString => EmptyString
  | String c t =>
      match t with
      | String c' t' =>
          if Ascii.eqb c "-" && Ascii.eqb c' " " then String "-" (join_ties t')
          else String c (join_ties t)
      | EmptyString => String c EmptyString
      end
  end.

Definition strip_decorators (content : string) : string :=
  join_ties (normalize_spaces (filter_string kept content)).

(** ** The pattern of the body and [re.finditer] *)

Module Match.

(** The six named groups of one match. *)
Record t : Type := mk {
  chord_start : string;
  accidentals : string;
  name : string;
  duration : string;
  chord_end : string;
  tie : string
}.

(** The number of characters the match covers. *)
Definition span (m : t) : nat :=
  (String.length (chord_start m) + String.length (accidentals m)
   + String.length (name m) + String.length (duration m)
   + String.length (chord_end m) + String.length (tie m))%nat.

End Match.

(** [x?] for a class [x]: one character of the class when the text
    starts with one, nothing otherwise; with the rest of the text. *)
Definition take_if (p : ascii -> bool) (s : string) : string * string :=
  match s with
  | String c t => if p c then (String c EmptyString, t) else (EmptyString, s)
  | EmptyString => (EmptyString, EmptyString)
  end.

(** The whole run of characters of a class at the start of the text. *)
Fixpoint take_while (p : ascii -> bool) (s : string) : string * string :=
  match s with
  | String c t =>
      if p c then let '(r, rest) := take_while p t in (String c r, rest)
      else (EmptyString, s)
  | EmptyString => (EmptyString, EmptyString)
  end.

(** The pattern tried at the start of [s]. A letter has to follow the
    accidentals and no accidental mark is a letter, so the lazy
    [[\^=_]*?] ends up with the whole run; if no letter follows the run,
    giving up the bracket does not help either, a bracket being neither a
    mark nor a letter. All that follows the letter is optional and
    greedy. *)
Definition match_at (s : string) : option Match.t :=
  let '(chord_start, s1) := take_if (Ascii.eqb "[") s in
  let '(accidentals, s2) := take_while is_accidental_mark s1 in
  match s2 with
  | String l s3 =>
      if is_alpha l then
        let '(octave, s4) := take_if is_octave_mark s3 in
        let '(duration, s5) := take_if is_digit s4 in
        let '(chord_end, s6) := take_if (Ascii.eqb "]") s5 in
        let '(tie, _) := take_if (Ascii.eqb "-") s6 in
        Some (Match.mk chord_start accidentals (String l octave)
                duration chord_end tie)
      else None
  | EmptyString => None
  end.

(** [re.finditer]: the matches from left to right, none overlapping.
    [skip] counts the characters still covered by the last match; a match
    covers at least its letter, so the scan goes on right after it. *)
Fixpoint finditer_from (skip : nat) (s : string) : list Match.t :=
  match s with
  | EmptyString => []
  | String _ t =>
      match skip with
      | S k => finditer_from k t
      | O =>
          match match_at s with
          | Some m => m :: finditer_from (Nat.pred (Match.span m)) t
          | None => finditer_from 0 t
          end
      end
  end.

Definition finditer (s : string) : list Match.t := finditer_from 0 s.

(** ** ParseAbcFile *)

(** The three variables the loop over the matches carries. *)
Record scan : Type := mk_scan {
  music : list MusicObject.t;
  detect_tie : bool;
  detect_chord : bool
}.

(** The object appended for a match. *)
Definition make_object (m : Match.t) : result MusicObject.t :=
  let accidental :=
    if 0 <? len (Match.accidentals m)
    then Some (Accidental.__init__ (Match.accidentals m))
    else None in
  if str_in (lower (Match.name m)) ["z"; "x"]
  then Rest.__init__ (Match.duration m)
  else Note.__init__ (Match.name m) accidental (Match.duration m).

(** The block under [if detect_tie]. *)
Definition tie_fold (music : list MusicObject.t) : result (list MusicObject.t) :=
  match unsnoc music with
  | None => Raise IndexError
  | Some (front, last) =>
      match unsnoc front with
      | None => Raise IndexError
      | Some (front', prev) =>
          if String.eqb (MusicObject.name prev) (MusicObject.name last)
          then Ok (front' ++ [MusicObject.set_duration
                               (MusicObject.duration prev + MusicObject.duration last)
                               prev])
          else Ok music
      end
  end.

(** [music[-1].duration = 0] *)
Definition chord_fold (music : list MusicObject.t) : result (list MusicObject.t) :=
  match unsnoc music with
  | None => Raise IndexError
  | Some (front, last) => Ok (front ++ [MusicObject.set_duration 0 last])
  end.

(** One round of the loop over the matches. *)
Definition step (st : scan) (m : Match.t) : result scan :=
  o <- make_object m ;;
  let music1 := music st ++ [o] in
  music2 <- (if detect_tie st then tie_fold music1 else Ok music1) ;;
  let tie' := negb (String.eqb (Match.tie m) "") in
  if detect_chord st then
    music3 <- chord_fold music2 ;;
    Ok (mk_scan music3 tie' (String.eqb (Match.chord_end m) ""))
  else
    Ok (mk_scan music2 tie' (negb (String.eqb (Match.chord_start m) ""))).

Definition scan_matches (ms : list Match.t) : result scan :=
  foldM step ms (mk_scan [] false false).

(** The music of a body text: the lines already joined, decorations
    still in. *)
Definition parse_music (music_content : string) : result (list MusicObject.t) :=
  st <- scan_matches (finditer (strip_decorators music_content)) ;;
  Ok (music st).

(** [.] matches anything but a line feed. *)
Definition is_dot (c : ascii) : bool := negb (Ascii.eqb c "010").

(** [InformationFieldMatcher.match] at the start of the line: a letter,
    a colon, and whatever follows up to a line feed. The two groups are
    the letter and what follows the colon. *)
Definition InformationFieldMatcher (line : string) : option (string * string) :=
  match line with
  | String c (String colon rest) =>
      if is_alpha c && Ascii.eqb colon ":"
      then Some (String c EmptyString, fst (take_while is_dot rest))
      else None
  | _ => None
  end.

(** The field appended for a matching line: the second argument is
    [information_field.groups(2)], the tuple of both groups. *)
Definition make_field (groups : string * string) : InformationField.t :=
  InformationField.__init__ (upper (fst groups))
    (PyTuple [fst groups; snd groups]).

(** The loop over [contents[1:]]: the fields read and the index reached. *)
Fixpoint read_header (lines : list string) (fields : list InformationField.t)
  (index : nat) : list InformationField.t * nat :=
  match lines with
  | [] => (fields, index)
  | line :: rest =>
      let line := strip line in
      if negb (len line =? 0) then
        match InformationFieldMatcher line with
        | Some groups => read_header rest (fields ++ [make_field groups]) (S index)
        | None => (fields, index)
        end
      else read_header rest fields (S index)
  end.

Definition too_short : exn :=
  ValueError "Tune header must contain at least X:, T:, and K:".
Definition bad_start : exn :=
  ValueError "Tune header must begin with X: followed by T:".
Definition bad_end : exn :=
  ValueError "Tune header must end with K:".

(** The three tests under [# Validate header contents]. *)
Definition validate_header (fields : list InformationField.t) : result unit :=
  if Z.of_nat (List.length fields) <? 3 then Raise too_short
  else
    match fields with
    | f0 :: f1 :: _ =>
        if negb (String.eqb (InformationField.name f0) "X")
           || negb (String.eqb (InformationField.name f1) "T")
        then Raise bad_start
        else
          match unsnoc fields with
          | Some (_, fl) =>
              if negb (String.eqb (InformationField.name fl) "K")
              then Raise bad_end
              else Ok tt
          | None => Raise IndexError
          end
    | _ => Raise IndexError
    end.

(** [f.readlines()] on the text of the file: the lines, each with the
    line feed that ends it; a last line may lack one. *)
Fixpoint readlines (text : string) : list string :=
  match text with
  | EmptyString => []
  | String c t =>
      if Ascii.eqb c "010" then String c EmptyString :: readlines t
      else match readlines t with
           | line :: r => String c line :: r
           | [] => [String c EmptyString]
           end
  end.

(** [text] is the text of the file at the path [input]. *)
Definition ParseAbcFile (text : string) : result AbcFile.t :=
  let contents := readlines text in
  match contents with
  | [] => Raise (ValueError "File is empty")
  | first :: rest =>
      if negb (String.eqb (strip first) "%abc")
      then Raise (ValueError
        "File does not appear to be an abc notation file (missing header)")
      else
        let '(fields, index) := read_header rest [] 1 in
        _ <- validate_header fields ;;
        music <- parse_music (join (map strip (skipn index contents))) ;;
        AbcFile.__init__ fields music
  end.

(** ** tape_template_maker.py *)

(** [sum(x.duration for x in music)], the beats of a tune. *)
Definition total_duration (music : list MusicObject.t) : Z :=
  fold_left Z.add (map MusicObject.duration music) 0.


(** [[n for n in music if n.name.lower() != "rest"]] *)
Definition notes_of (music : list MusicObject.t) : list MusicObject.t :=
  filter (fun n => negb (String.eqb (lower (MusicObject.name n)) "rest")) music.

(** The loop of [min] and [max] over the items after the first: an item
    replaces the best so far when the comparison with it holds. *)
Fixpoint best_from (better : MusicObject.t -> MusicObject.t -> result bool)
  (best : MusicObject.t) (l : list MusicObject.t) : result MusicObject.t :=
  match l with
  | [] => Ok best
  | x :: t =>
      b <- better x best ;;
      best_from better (if b then x else best) t
  end.

Definition empty_sequence : exn := ValueError "arg is an empty sequence".

(** [min(notes)], by [<] *)
Definition min_note (notes : list MusicObject.t) : result MusicObject.t :=
  match notes with
  | [] => Raise empty_sequence
  | x :: t => best_from Note.__lt__ x t
  end.

(** [max(notes)], by [>] *)
Definition max_note (notes : list MusicObject.t) : result MusicObject.t :=
  match notes with
  | [] => Raise empty_sequence
  | x :: t => best_from Note.__gt__ x t
  end.

(** [scale_range = ma.value - mi.value + 1] *)
Definition scale_range (music : list MusicObject.t) : result Z :=
  let notes := notes_of music in
  mi <- min_note notes ;;
  ma <- max_note notes ;;
  hi <- MusicObject.value ma ;;
  lo <- MusicObject.value mi ;;
  Ok (hi - lo + 1).

(** [while type(music[0]) is Rest: music = music[1:]] *)
Fixpoint drop_leading_rests (music : list MusicObject.t)
  : result (list MusicObject.t) :=
  match music with
  | [] => Raise IndexError
  | MusicObject.Rest _ :: t => drop_leading_rests t
  | MusicObject.Note _ _ _ _ :: _ => Ok music
  end.

(** [while type(music[-1]) is Rest: music = music[:-2]], on the list
    taken last event first: a round drops the last two events, or the
    only one. *)
Fixpoint drop_trailing_rests_rev (r : list MusicObject.t)
  : result (list MusicObject.t) :=
  match r with
  | [] => Raise IndexError
  | MusicObject.Rest _ :: r' =>
      match r' with
      | [] => Raise IndexError
      | _ :: r'' => drop_trailing_rests_rev r''
      end
  | MusicObject.Note _ _ _ _ :: _ => Ok (rev r)
  end.

Definition drop_trailing_rests (music : list MusicObject.t)
  : result (list MusicObject.t) :=
  drop_trailing_rests_rev (rev music).

(** [if music[-1].duration > 1: music[-1].duration = 1] *)
Definition shorten_last (music : list MusicObject.t)
  : result (list MusicObject.t) :=
  match unsnoc music with
  | None => Raise IndexError
  | Some (front, last) =>
      if MusicObject.duration last >? 1
      then Ok (front ++ [MusicObject.set_duration 1 last])
      else Ok music
  end.

(** The three steps the script takes before it measures and draws the
    tune. *)
Definition prepare (music : list MusicObject.t) : result (list MusicObject.t) :=
  music1 <- drop_leading_rests music ;;
  music2 <- drop_trailing_rests music1 ;;
  shorten_last music2.


(** * Properties *)

(** ** The pitch value as the design document words it *)

(** The fixed table, letter by letter. *)
Definition pitch_table : list (ascii * Z) :=
  [("C", 40); ("D", 42); ("E", 44); ("F", 45); ("G", 47); ("A", 49);
   ("B", 51); ("c", 52); ("d", 54); ("e", 56); ("f", 57); ("g", 59);
   ("a", 61); ("b", 63)]%char.

Fixpoint table_value (n : ascii) (table : list (ascii * Z)) : option Z :=
  match table with
  | [] => None
  | (k, v) :: r => if Ascii.eqb k n then Some v else table_value n r
  end.

(** How often a character occurs in a text. *)
Fixpoint count_char (c : ascii) (s : string) : Z :=
  match s with
  | EmptyString => 0
  | String x t => (if Ascii.eqb x c then 1 else 0) + count_char c t
  end.

(** The semitone delta of a mark: flat, natural, sharp. *)
Definition semitone_delta (mark : option string) : Z :=
  match mark with
  | None => 0
  | Some m =>
      if String.eqb m "_" then -1
      else if String.eqb m "^" then 1
      else 0
  end.

(** The keys of a header, in order. *)
Definition keys (fields : list InformationField.t) : list string :=
  map InformationField.name fields.

(** Every character of a text is of a class. *)
Fixpoint all_chars (p : ascii -> bool) (s : string) : bool :=
  match s with
  | EmptyString => true
  | String c t => p c && all_chars p t
  end.

(** A duration group as the pattern leaves it: empty, or one digit. *)
Definition digit_or_empty (s : string) : Prop :=
  s = "" \/ exists c, is_digit c = true /\ s = String c "".

(** Every event lasts at least [k] beats. *)
Definition durations_from (k : Z) (music : list MusicObject.t) : Prop :=
  Forall (fun o => k <= MusicObject.duration o) music.

Definition is_mark (mark : option string) : Prop :=
  mark = None \/ mark = Some "_" \/ mark = Some "=" \/ mark = Some "^".

(** Base value, minus twelve per comma, plus twelve per apostrophe, plus
    the delta of the mark. *)
Definition pitch_value (base : Z) (tail : string) (mark : option string) : Z :=
  base - 12 * count_char "," tail + 12 * count_char "'" tail
  + semitone_delta mark.

(** No character [a] is directly followed by a character [b]. *)
Fixpoint no_pair (a b : ascii) (s : string) : bool :=
  match s with
  | EmptyString => true
  | String c t =>
      match t with
      | String c' _ => negb (Ascii.eqb c a && Ascii.eqb c' b) && no_pair a b t
      | EmptyString => true
      end
  end.

(** The first character of a text, if any. *)
Definition first_char (s : string) : option ascii :=
  match s with
  | EmptyString => None
  | String c _ => Some c
  end.

(** A group taken by [x?]: nothing, or one character of the class. *)
Definition at_most_one (p : ascii -> bool) (s : string) : Prop :=
  s = "" \/ exists c, p c = true /\ s = String c "".

(** The shape of a match of the body pattern. *)
Definition well_formed (m : Match.t) : Prop :=
  at_most_one (Ascii.eqb "[") (Match.chord_start m) /\
  all_chars is_accidental_mark (Match.accidentals m) = true /\
  (exists l octave,
     Match.name m = String l octave /\ is_alpha l = true /\
     at_most_one is_octave_mark octave) /\
  digit_or_empty (Match.duration m) /\
  at_most_one (Ascii.eqb "]") (Match.chord_end m) /\
  at_most_one (Ascii.eqb "-") (Match.tie m).

(** The text a match covers. *)
Definition matched_text (m : Match.t) : string :=
  (Match.chord_start m ++ Match.accidentals m ++ Match.name m
   ++ Match.duration m ++ Match.chord_end m ++ Match.tie m)%string.

(** How many characters of a text are of a class. *)
Fixpoint count_if (p : ascii -> bool) (s : string) : nat :=
  match s with
  | EmptyString => O
  | String c t => ((if p c then 1 else 0) + count_if p t)%nat
  end.

(** A letter of the pitch table, as a test. *)
Definition in_table (l : ascii) : bool :=
  existsb (Ascii.eqb l) Note.base_notes.

(** A match that can be turned into an event: a rest, or a note with a
    letter of the pitch table and at most one accidental mark. *)
Definition playable (m : Match.t) : bool :=
  str_in (lower (Match.name m)) ["z"; "x"]
  || (match Match.name m with
      | String l _ => in_table l
      | EmptyString => false
      end
      && (String.length (Match.accidentals m) <=? 1)%nat).

(** The duration written on a match: its digit, or 1 without one. *)
Definition beats (m : Match.t) : Z :=
  match MusicObject.__init__ (Match.duration m) with
  | Ok z => z
  | Raise _ => 0
  end.

(** The two exceptions a body can raise. *)
Definition body_error (e : exn) : Prop :=
  e = ValueError "is not in list" \/ e = AttributeError "value".

(** With a tie pending there is an event to fold into. *)
Definition tie_has_event (st : scan) : Prop :=
  detect_tie st = true -> music st <> [].

(** What key-signature propagation may do to an event: the name and the
    duration stay; a rest and a note that has an accidental stay as they
    are altogether. *)
Definition propagated (o o' : MusicObject.t) : Prop :=
  MusicObject.name o' = MusicObject.name o /\
  MusicObject.duration o' = MusicObject.duration o /\
  match o with
  | MusicObject.Rest _ => o' = o
  | MusicObject.Note _ (Some _) _ _ => o' = o
  | MusicObject.Note _ None _ _ => True
  end.

(** The header field a line [K:value] is read into. *)
Definition key_field (value : string) : InformationField.t :=
  InformationField.mk "K" (PyTuple ["K"; value]).

(** A header field as [ParseAbcFile] builds it from a line: the key is
    the letter of the line in upper case, the value the tuple of the
    letter as written and the text after the colon. *)
Definition field_as_read (f : InformationField.t) : Prop :=
  exists c rest,
    is_alpha c = true /\ is_upper (upper_char c) = true /\
    InformationField.name f = String (upper_char c) "" /\
    InformationField.value f = PyTuple [String c ""; rest].

Definition is_note (o : MusicObject.t) : Prop :=
  match o with
  | MusicObject.Note _ _ _ _ => True
  | MusicObject.Rest _ => False
  end.

Definition is_rest (o : MusicObject.t) : Prop :=
  match o with
  | MusicObject.Rest _ => True
  | MusicObject.Note _ _ _ _ => False
  end.

(** The value of a note. *)
Definition pitch (o : MusicObject.t) : Z :=
  match o with
  | MusicObject.Note _ _ _ v => v
  | MusicObject.Rest _ => 0
  end.

(** An event as the reader leaves it: the name of a note is a letter
    with at most one octave mark, and its value is from 27, the flat of
    the C with a comma, to 76, the sharp of the b with an apostrophe. *)
Definition note_in_range (o : MusicObject.t) : Prop :=
  match o with
  | MusicObject.Rest _ => True
  | MusicObject.Note n _ _ v =>
      (exists l octave,
         n = String l octave /\ at_most_one is_octave_mark octave) /\
      27 <= v <= 76
  end.

(** Whether a chord is open after a token, from whether one was open
    before it: an open chord stays open unless the token has a closing
    bracket; with none open, the token opens one if it has an opening
    bracket, and its own closing bracket is not looked at. *)
Definition chord_after (open : bool) (m : Match.t) : bool :=
  if open then String.eqb (Match.chord_end m) ""
  else negb (String.eqb (Match.chord_start m) "").

(** Whether a chord is open after the tokens of a body. *)
Definition chord_open (ms : list Match.t) : bool :=
  fold_left chord_after ms false.

(** For each token, whether it is read while a chord is open: the
    non-leading members of the chords. *)
Fixpoint read_in_chord (open : bool) (ms : list Match.t) : list bool :=
  match ms with
  | [] => []
  | m :: r => open :: read_in_chord (chord_after open m) r
  end.

(** The durations of the events of a body without ties: 0 for a token
    read while a chord is open, the written duration for any other. *)
Fixpoint chord_durations (open : bool) (ms : list Match.t) : list Z :=
  match ms with
  | [] => []
  | m :: r =>
      (if open then 0 else beats m) :: chord_durations (chord_after open m) r
  end.

(** An event, its duration set to 0 when a chord is open. *)
Definition zero_if (open : bool) (o : MusicObject.t) : MusicObject.t :=
  if open then MusicObject.set_duration 0 o else o.

(** The exception a note with a run of two or more accidental marks
    ends in: the lookup of the letter comes first. *)
Definition run_error (l : ascii) : exn :=
  if in_table l then AttributeError "value" else ValueError "is not in list".

(** ** Helper lemmas *)

Lemma unsnoc_snoc {A : Type} (l : list A) (x : A) :
  unsnoc (l ++ [x]) = Some (l, x).
Proof.
  induction l as [|y l IH]; simpl.
  - reflexivity.
  - rewrite IH. reflexivity.
Qed.

Lemma unsnoc_length {A : Type} (l front : list A) (x : A) :
  unsnoc l = Some (front, x) -> l = front ++ [x].
Proof.
  revert front x. induction l as [|y l IH]; simpl; intros front x H.
  - discriminate.
  - destruct (unsnoc l) as [[i z]|] eqn:E.
    + inversion H; subst. rewrite (IH i x eq_refl). reflexivity.
    + inversion H; subst. destruct l as [|w l]; [reflexivity|].
      simpl in E. destruct (unsnoc l) as [[? ?]|]; discriminate.
Qed.

Lemma bind_ok {A B : Type} (r : result A) (k : A -> result B) (b : B) :
  bind r k = Ok b -> exists a, r = Ok a /\ k a = Ok b.
Proof.
  destruct r as [a|e]; simpl; intros H.
  - exists a. split; [reflexivity | exact H].
  - discriminate.
Qed.

Lemma staff_adjust_count (tail : string) (v : Z) :
  Note.staff_adjust v tail
  = v - 12 * count_char "," tail + 12 * count_char "'" tail.
Proof.
  revert v. induction tail as [|c t IH]; intros v;
    cbn [Note.staff_adjust count_char].
  - lia.
  - rewrite IH. unfold Note.staff_step.
    destruct (Ascii.eqb c ",") eqn:Ec.
    + apply Ascii.eqb_eq in Ec. subst c.
      replace (Ascii.eqb "," "'") with false by reflexivity. lia.
    + destruct (Ascii.eqb c "'"); lia.
Qed.

Lemma base_note_value (n : ascii) :
  In n Note.base_notes ->
  exists b, table_value n pitch_table = Some b /\
            bind (Note.index n Note.base_notes) (Note.getitem Note.base_values)
            = Ok b.
Proof.
  intros H. simpl in H.
  repeat (destruct H as [H|H]; [subst n; eexists; split; reflexivity|]).
  contradiction.
Qed.

Lemma mark_delta (mark : string) :
  is_mark (Some mark) ->
  Accidental.get_value (Accidental.__init__ mark)
  = Ok (semitone_delta (Some mark)).
Proof.
  intros [H|[H|[H|H]]]; try discriminate; inversion H; reflexivity.
Qed.

Lemma compute_value_pitch (n : ascii) (tail : string) (mark : option string) :
  In n Note.base_notes -> is_mark mark ->
  exists b, table_value n pitch_table = Some b /\
    Note.compute_value (String n tail) (option_map Accidental.__init__ mark)
    = Ok (pitch_value b tail mark).
Proof.
  intros Hn Hm. destruct (base_note_value n Hn) as [b [Ht Hb]].
  exists b. split; [exact Ht|].
  unfold Note.compute_value.
  destruct (Note.index n Note.base_notes) as [i|e]; simpl in Hb; [|discriminate].
  simpl. rewrite Hb. simpl. rewrite staff_adjust_count. unfold pitch_value.
  destruct mark as [m|]; simpl.
  - rewrite (mark_delta m Hm). simpl. reflexivity.
  - f_equal. lia.
Qed.

Lemma index_in (n : ascii) (l : list ascii) (i : nat) :
  Note.index n l = Ok i -> In n l.
Proof.
  revert i. induction l as [|x r IH]; intros i H; simpl in H.
  - discriminate.
  - destruct (Ascii.eqb x n) eqn:E.
    + left. apply Ascii.eqb_eq. exact E.
    + apply bind_ok in H. destruct H as [j [Hj _]].
      right. apply (IH j Hj).
Qed.

Lemma compute_value_inv (name : string) (mark : option string) (v : Z) :
  Note.compute_value name (option_map Accidental.__init__ mark) = Ok v ->
  exists n tail b,
    name = String n tail /\ In n Note.base_notes /\ is_mark mark /\
    table_value n pitch_table = Some b /\ v = pitch_value b tail mark.
Proof.
  intros H. destruct name as [|n tail]; [discriminate|].
  assert (In n Note.base_notes) as Hn.
  { unfold Note.compute_value in H.
    destruct (Note.index n Note.base_notes) as [i|e] eqn:E; [|discriminate].
    apply (index_in n _ i E). }
  assert (is_mark mark) as Hm.
  { destruct mark as [m|]; [|left; reflexivity].
    destruct (String.eqb m "_") eqn:E1;
      [apply String.eqb_eq in E1; subst; right; left; reflexivity|].
    destruct (String.eqb m "^") eqn:E2;
      [apply String.eqb_eq in E2; subst; right; right; right; reflexivity|].
    destruct (String.eqb m "=") eqn:E3;
      [apply String.eqb_eq in E3; subst; right; right; left; reflexivity|].
    exfalso. unfold Note.compute_value in H.
    destruct (Note.index n Note.base_notes) as [i|e]; [|discriminate].
    cbn [bind] in H.
    destruct (Note.getitem Note.base_values i) as [b|e]; [|discriminate].
    cbn [bind option_map] in H.
    unfold Accidental.get_value, Accidental.__init__ in H.
    cbn [Accidental.value] in H. rewrite E1, E2, E3 in H. discriminate. }
  destruct (compute_value_pitch n tail mark Hn Hm) as [b [Ht Hv]].
  rewrite Hv in H. inversion H; subst.
  exists n, tail, b. repeat split; assumption.
Qed.

(** ** The pitch value model *)

(** C4. For a note whose first letter is one of the fourteen of the table
    and whose accidental is absent or one of the three marks, the value
    [_update_value] stores is the table's value for the letter, minus 12
    for each comma and plus 12 for each apostrophe of the rest of the
    name, plus the delta of the accidental (-1, 0, +1; 0 when absent).
    The value held before plays no part: [set_accidental] gives the same
    value whatever value and accidental the note had, and a second
    [_update_value] changes nothing. No other note gets a value: when
    [_update_value] returns, the letter is of the table, the accidental
    is absent or a mark, and the value stored is the one above. *)
Theorem pitch_value_from_table :
  (forall n tail mark d v0,
     In n Note.base_notes -> is_mark mark ->
     exists b, table_value n pitch_table = Some b /\
       let a := option_map Accidental.__init__ mark in
       let o := MusicObject.Note (String n tail) a d (pitch_value b tail mark) in
       Note._update_value (MusicObject.Note (String n tail) a d v0) = Ok o /\
       Note._update_value o = Ok o /\
       (forall m a0, mark = Some m ->
          Note.set_accidental (MusicObject.Note (String n tail) a0 d v0)
            (Accidental.__init__ m) = Ok o)) /\
  (forall name mark d v0 o,
     Note._update_value
       (MusicObject.Note name (option_map Accidental.__init__ mark) d v0)
     = Ok o ->
     exists n tail b,
       name = String n tail /\ table_value n pitch_table = Some b /\
       o = MusicObject.Note name (option_map Accidental.__init__ mark) d
             (pitch_value b tail mark)).
Proof.
  split.
  - intros n tail mark d v0 Hn Hm.
    destruct (compute_value_pitch n tail mark Hn Hm) as [b [Ht Hv]].
    exists b. split; [exact Ht|]. cbv zeta.
    split; [|split].
    + unfold Note._update_value. rewrite Hv. reflexivity.
    + unfold Note._update_value. rewrite Hv. reflexivity.
    + intros m a0 ->. unfold Note.set_accidental, Note._update_value.
      cbn [option_map] in Hv. rewrite Hv. reflexivity.
  - intros name mark d v0 o H. unfold Note._update_value in H.
    apply bind_ok in H. destruct H as [v [Hv H]]. inversion H; subst.
    destruct (compute_value_inv name mark v Hv)
      as [n [tail [b [E [_ [_ [Ht Ev]]]]]]].
    exists n, tail, b. subst. repeat split; assumption.
Qed.

Lemma pitch_value_from_table_witness :
  (exists b, table_value "c" pitch_table = Some b /\
     Note._update_value
       (MusicObject.Note "c'" (Some (Accidental.__init__ "^")) 2 0)
     = Ok (MusicObject.Note "c'" (Some (Accidental.__init__ "^")) 2
             (pitch_value b "'" (Some "^")))) /\
  (exists n tail b,
     "D,," = String n tail /\ table_value n pitch_table = Some b /\
     MusicObject.Note "D,," (Some (Accidental.__init__ "_")) 3 17
     = MusicObject.Note "D,," (Some (Accidental.__init__ "_")) 3
         (pitch_value b tail (Some "_"))).
Proof.
  split.
  - destruct (proj1 pitch_value_from_table "c"%char "'" (Some "^") 2 0)
      as [b [Ht [Hv _]]].
    + simpl. tauto.
    + right. right. right. reflexivity.
    + exists b. split; [exact Ht | exact Hv].
  - apply (proj2 pitch_value_from_table "D,," (Some "_") 3 0).
    reflexivity.
Defined.

(** ** Comparison of notes *)

(** C9. Two notes are equal exactly when their values are equal and the
    first is smaller exactly when its value is smaller, whatever their
    names, accidentals and durations; C sharp and D flat, built by the
    constructor, are equal. *)
Theorem note_comparison_by_value
  (n1 n2 : string) (a1 a2 : option Accidental.t) (d1 d2 v1 v2 : Z) :
  let x := MusicObject.Note n1 a1 d1 v1 in
  let y := MusicObject.Note n2 a2 d2 v2 in
  (Note.__eq__ x y = Ok true <-> v1 = v2) /\
  (Note.__eq__ x y = Ok false <-> v1 <> v2) /\
  (Note.__lt__ x y = Ok true <-> v1 < v2) /\
  (Note.__lt__ x y = Ok false <-> ~ v1 < v2) /\
  (exists cs df,
     Note.__init__ "C" (Some (Accidental.__init__ "^")) "" = Ok cs /\
     Note.__init__ "D" (Some (Accidental.__init__ "_")) "2" = Ok df /\
     MusicObject.name cs <> MusicObject.name df /\
     Note.__eq__ cs df = Ok true /\ Note.__lt__ cs df = Ok false).
Proof.
  cbv zeta. unfold Note.__eq__, Note.__lt__. simpl.
  repeat split.
  - intros H. inversion H as [E]. apply Z.eqb_eq. exact E.
  - intros ->. rewrite Z.eqb_refl. reflexivity.
  - intros H. inversion H as [E]. apply Z.eqb_neq. exact E.
  - intros H. apply Z.eqb_neq in H. rewrite H. reflexivity.
  - intros H. inversion H as [E]. apply Z.ltb_lt. exact E.
  - intros H. apply Z.ltb_lt in H. rewrite H. reflexivity.
  - intros H. inversion H as [E]. apply Z.ltb_nlt. exact E.
  - intros H. apply Z.ltb_nlt in H. rewrite H. reflexivity.
  - eexists. eexists.
    split; [reflexivity|]. split; [reflexivity|].
    split; [discriminate|]. split; reflexivity.
Qed.

(** ** Header validation *)

Lemma unsnoc_last {A B : Type} (g : A -> B) (l front : list A) (x : A) (d : B) :
  unsnoc l = Some (front, x) -> last (map g l) d = g x.
Proof.
  intros H. rewrite (unsnoc_length l front x H), map_app. simpl.
  apply last_last.
Qed.

Lemma validate_header_cases (fields : list InformationField.t) :
  validate_header fields =
  let ks := keys fields in
  if (List.length fields <? 3)%nat then Raise too_short
  else if negb (String.eqb (nth 0 ks "") "X")
          || negb (String.eqb (nth 1 ks "") "T") then Raise bad_start
  else if negb (String.eqb (last ks "") "K") then Raise bad_end
  else Ok tt.
Proof.
  unfold validate_header, keys. cbv zeta.
  destruct fields as [|f0 [|f1 [|f2 r]]]; try reflexivity.
  replace (Z.of_nat (List.length (f0 :: f1 :: f2 :: r)) <? 3) with false
    by (symmetry; apply Z.ltb_ge; simpl List.length; lia).
  replace (List.length (f0 :: f1 :: f2 :: r) <? 3)%nat with false
    by reflexivity.
  destruct (unsnoc (f0 :: f1 :: f2 :: r)) as [[front fl]|] eqn:E.
  - rewrite (unsnoc_last InformationField.name _ front fl "" E).
    reflexivity.
  - simpl in E. destruct (unsnoc r) as [[? ?]|]; discriminate.
Qed.

(** C8. Validation fails with the message of the first rule broken: too
    few fields when there are fewer than 3; else a wrong start when the
    first key is not X or the second is not T; else a wrong end when the
    last key is not K. The three messages differ. A header whose keys are
    X, T, K passes, and the file with the lines X:1, T:Tune, K:C is read
    into a document of 3 fields. *)
Theorem header_validation (fields : list InformationField.t) :
  let ks := keys fields in
  ((List.length fields < 3)%nat -> validate_header fields = Raise too_short) /\
  ((3 <= List.length fields)%nat ->
   nth 0 ks "" <> "X" \/ nth 1 ks "" <> "T" ->
   validate_header fields = Raise bad_start) /\
  ((3 <= List.length fields)%nat ->
   nth 0 ks "" = "X" -> nth 1 ks "" = "T" -> last ks "" <> "K" ->
   validate_header fields = Raise bad_end) /\
  (validate_header fields = Ok tt <->
   (3 <= List.length fields)%nat /\
   nth 0 ks "" = "X" /\ nth 1 ks "" = "T" /\ last ks "" = "K") /\
  (too_short <> bad_start /\ too_short <> bad_end /\ bad_start <> bad_end) /\
  (forall x t k,
     validate_header [InformationField.mk "X" x; InformationField.mk "T" t;
                      InformationField.mk "K" k] = Ok tt) /\
  (exists doc,
     ParseAbcFile
      "%abc
X:1
T:Tune
K:C
" = Ok doc /\
     keys (AbcFile.fields doc) = ["X"; "T"; "K"]).
Proof.
  cbv zeta. rewrite validate_header_cases. cbv zeta.
  split; [|split; [|split; [|split; [|split; [|split]]]]].
  - intros H. apply Nat.ltb_lt in H. rewrite H. reflexivity.
  - intros H [Hx|Ht]; apply Nat.ltb_ge in H; rewrite H.
    + apply String.eqb_neq in Hx. rewrite Hx. reflexivity.
    + apply String.eqb_neq in Ht. rewrite Ht, orb_true_r. reflexivity.
  - intros H Hx Ht Hk. apply Nat.ltb_ge in H. rewrite H, Hx, Ht.
    apply String.eqb_neq in Hk. rewrite Hk. reflexivity.
  - split.
    + destruct (List.length fields <? 3)%nat eqn:E; [discriminate|].
      apply Nat.ltb_ge in E.
      destruct (String.eqb (nth 0 (keys fields) "") "X") eqn:Ex;
        [|discriminate].
      destruct (String.eqb (nth 1 (keys fields) "") "T") eqn:Et;
        [|discriminate].
      destruct (String.eqb (last (keys fields) "") "K") eqn:Ek;
        [|discriminate].
      intros _. apply String.eqb_eq in Ex, Et, Ek.
      split; [exact E|]. split; [exact Ex|]. split; [exact Et | exact Ek].
    + intros [H [Hx [Ht Hk]]]. apply Nat.ltb_ge in H.
      rewrite H, Hx, Ht, Hk. reflexivity.
  - split; [|split]; discriminate.
  - intros x t k. reflexivity.
  - eexists. split; reflexivity.
Qed.

Lemma header_validation_witness :
  validate_header
    [InformationField.mk "X" (PyStr "1"); InformationField.mk "K" (PyStr "C")]
  = Raise too_short /\
  validate_header
    [InformationField.mk "T" (PyStr "t"); InformationField.mk "X" (PyStr "1");
     InformationField.mk "K" (PyStr "C")]
  = Raise bad_start /\
  validate_header
    [InformationField.mk "X" (PyStr "1"); InformationField.mk "T" (PyStr "t");
     InformationField.mk "K" (PyStr "C"); InformationField.mk "M" (PyStr "4/4")]
  = Raise bad_end /\
  validate_header
    [InformationField.mk "X" (PyStr "1"); InformationField.mk "T" (PyStr "t");
     InformationField.mk "M" (PyStr "4/4"); InformationField.mk "K" (PyStr "C")]
  = Ok tt.
Proof.
  split; [|split; [|split]].
  - apply (header_validation
      [InformationField.mk "X" (PyStr "1"); InformationField.mk "K" (PyStr "C")]).
    simpl. lia.
  - apply (header_validation
      [InformationField.mk "T" (PyStr "t"); InformationField.mk "X" (PyStr "1");
       InformationField.mk "K" (PyStr "C")]).
    + simpl. lia.
    + left. simpl. discriminate.
  - apply (header_validation
      [InformationField.mk "X" (PyStr "1"); InformationField.mk "T" (PyStr "t");
       InformationField.mk "K" (PyStr "C"); InformationField.mk "M" (PyStr "4/4")]).
    + simpl. lia.
    + reflexivity.
    + reflexivity.
    + simpl. discriminate.
  - apply (header_validation
      [InformationField.mk "X" (PyStr "1"); InformationField.mk "T" (PyStr "t");
       InformationField.mk "M" (PyStr "4/4"); InformationField.mk "K" (PyStr "C")]).
    simpl. repeat split. lia.
Defined.

(** ** Ties *)

Lemma tie_fold_pair (front : list MusicObject.t) (a b : MusicObject.t) :
  tie_fold (front ++ [a; b]) =
  if String.eqb (MusicObject.name a) (MusicObject.name b)
  then Ok (front ++ [MusicObject.set_duration
                       (MusicObject.duration a + MusicObject.duration b) a])
  else Ok (front ++ [a; b]).
Proof.
  unfold tie_fold.
  replace (front ++ [a; b]) with ((front ++ [a]) ++ [b])
    by (rewrite <- app_assoc; reflexivity).
  rewrite !unsnoc_snoc. reflexivity.
Qed.

(** ** Chords *)

Lemma chord_fold_shape (music music' : list MusicObject.t) :
  chord_fold music = Ok music' ->
  exists front last,
    music = front ++ [last] /\
    music' = front ++ [MusicObject.set_duration 0 last].
Proof.
  unfold chord_fold. destruct (unsnoc music) as [[front last]|] eqn:E;
    intros H; inversion H; subst.
  exists front, last. split; [apply unsnoc_length; exact E | reflexivity].
Qed.

Lemma set_duration_name (d : Z) (o : MusicObject.t) :
  MusicObject.name (MusicObject.set_duration d o) = MusicObject.name o.
Proof. destruct o; reflexivity. Qed.

Lemma set_duration_duration (d : Z) (o : MusicObject.t) :
  MusicObject.duration (MusicObject.set_duration d o) = d.
Proof. destruct o; reflexivity. Qed.

Lemma step_without_tie (st st' : scan) (m : Match.t) :
  detect_tie st = false -> step st m = Ok st' ->
  List.length (music st') = S (List.length (music st)) /\
  detect_tie st' = negb (String.eqb (Match.tie m) "").
Proof.
  intros Ht H. unfold step in H.
  apply bind_ok in H. destruct H as [o [_ H]].
  rewrite Ht in H. cbn [bind] in H.
  destruct (detect_chord st).
  - apply bind_ok in H. destruct H as [music3 [Hc H]].
    inversion H; subst; cbn [music detect_tie].
    apply chord_fold_shape in Hc. destruct Hc as [front [last [E1 E2]]].
    subst music3. split; [|reflexivity].
    rewrite length_app. simpl.
    apply (f_equal (@List.length _)) in E1. rewrite !length_app in E1.
    simpl in E1. lia.
  - inversion H; subst; cbn [music detect_tie]. split; [|reflexivity].
    rewrite length_app. simpl. lia.
Qed.

Lemma scan_without_ties (ms : list Match.t) (st st' : scan) :
  Forall (fun m => Match.tie m = "") ms ->
  detect_tie st = false -> foldM step ms st = Ok st' ->
  List.length (music st') = (List.length (music st) + List.length ms)%nat.
Proof.
  revert st. induction ms as [|m ms IH]; intros st Hms Ht H.
  - inversion H; subst. simpl. lia.
  - cbn [foldM] in H. apply bind_ok in H. destruct H as [st1 [H1 H]].
    inversion Hms as [|? ? Hm Hms']; subst.
    destruct (step_without_tie st st1 m Ht H1) as [L T].
    rewrite Hm in T. simpl in T.
    rewrite (IH st1 Hms' T H), L. simpl. lia.
Qed.

(** ** Durations *)

Lemma take_if_digit (s d r : string) :
  take_if is_digit s = (d, r) -> digit_or_empty d.
Proof.
  destruct s as [|c t]; simpl.
  - intros H. inversion H. left. reflexivity.
  - destruct (is_digit c) eqn:E; intros H; inversion H.
    + right. exists c. split; [exact E | reflexivity].
    + left. reflexivity.
Qed.

Lemma match_at_duration (s : string) (m : Match.t) :
  match_at s = Some m -> digit_or_empty (Match.duration m).
Proof.
  unfold match_at.
  destruct (take_if (Ascii.eqb "[") s) as [cs s1].
  destruct (take_while is_accidental_mark s1) as [acc s2].
  destruct s2 as [|l s3]; [discriminate|].
  destruct (is_alpha l); [|discriminate].
  destruct (take_if is_octave_mark s3) as [oct s4].
  destruct (take_if is_digit s4) as [dur s5] eqn:Ed.
  destruct (take_if (Ascii.eqb "]") s5) as [ce s6].
  destruct (take_if (Ascii.eqb "-") s6) as [ti s7].
  intros H. inversion H. simpl.
  apply (take_if_digit s4 dur s5 Ed).
Qed.

Lemma finditer_from_duration (s : string) (skip : nat) :
  Forall (fun m => digit_or_empty (Match.duration m)) (finditer_from skip s).
Proof.
  revert skip. induction s as [|c t IH]; intros skip; simpl.
  - constructor.
  - destruct skip as [|k]; [|apply IH].
    destruct (match_at (String c t)) as [m|] eqn:E; [|apply IH].
    constructor; [apply (match_at_duration _ _ E) | apply IH].
Qed.

Lemma digit_value_range (c : ascii) :
  is_digit c = true ->
  0 <= digit_value c <= 9 /\ (c <> "0"%char -> 1 <= digit_value c).
Proof.
  unfold is_digit, between, digit_value, code. intros H.
  apply andb_true_iff in H. destruct H as [H1 H2].
  apply N.leb_le in H1. apply N.leb_le in H2.
  split; [lia|]. intros Hc.
  assert (N_of_ascii c <> 48%N) as Hn.
  { intros E. apply Hc. rewrite <- (ascii_N_embedding c), E. reflexivity. }
  lia.
Qed.

Lemma init_duration (d : string) :
  digit_or_empty d ->
  exists z, MusicObject.__init__ d = Ok z /\
            0 <= z <= 9 /\ (d <> "0" -> 1 <= z).
Proof.
  intros [->|[c [Hc ->]]].
  - exists 1. split; [reflexivity|]. lia.
  - exists (digit_value c). unfold MusicObject.__init__. simpl.
    rewrite Hc. split; [reflexivity|].
    destruct (digit_value_range c Hc) as [R P].
    split; [exact R|]. intros H. apply P. intros ->. apply H. reflexivity.
Qed.

Lemma make_object_duration (m : Match.t) (o : MusicObject.t) :
  digit_or_empty (Match.duration m) -> make_object m = Ok o ->
  0 <= MusicObject.duration o /\
  (Match.duration m <> "0" -> 1 <= MusicObject.duration o).
Proof.
  intros Hd H. destruct (init_duration _ Hd) as [z [Hz [R P]]].
  unfold make_object in H.
  destruct (str_in (lower (Match.name m)) ["z"; "x"]).
  - unfold Rest.__init__ in H. rewrite Hz in H. inversion H. simpl.
    split; [lia | exact P].
  - unfold Note.__init__ in H. rewrite Hz in H. cbn [bind] in H.
    unfold Note._update_value in H.
    apply bind_ok in H. destruct H as [v [_ H]]. inversion H. simpl.
    split; [lia | exact P].
Qed.

Lemma tie_fold_bound (k : Z) (music0 music' : list MusicObject.t) :
  0 <= k -> durations_from k music0 -> tie_fold music0 = Ok music' ->
  durations_from k music'.
Proof.
  unfold durations_from, tie_fold. intros Hk Hall H.
  destruct (unsnoc music0) as [[front last]|] eqn:E1; [|discriminate].
  destruct (unsnoc front) as [[front' prev]|] eqn:E2; [|discriminate].
  destruct (String.eqb (MusicObject.name prev) (MusicObject.name last));
    inversion H; subst; [|exact Hall].
  apply unsnoc_length in E1. apply unsnoc_length in E2. subst.
  apply Forall_app in Hall. destruct Hall as [Hf Hl].
  apply Forall_app in Hf. destruct Hf as [Hf Hp].
  apply Forall_app. split; [exact Hf|].
  constructor; [|constructor].
  rewrite set_duration_duration.
  inversion Hl; subst. inversion Hp; subst. lia.
Qed.

Lemma step_nonnegative (st st' : scan) (m : Match.t) :
  digit_or_empty (Match.duration m) ->
  durations_from 0 (music st) -> step st m = Ok st' ->
  durations_from 0 (music st').
Proof.
  intros Hd Hall H. unfold step in H.
  apply bind_ok in H. destruct H as [o [Ho H]].
  apply bind_ok in H. destruct H as [music2 [H2 H]].
  destruct (make_object_duration m o Hd Ho) as [Hpos _].
  assert (durations_from 0 (music st ++ [o])) as H1.
  { apply Forall_app. split; [exact Hall|]. constructor; [exact Hpos|constructor]. }
  assert (durations_from 0 music2) as H2'.
  { destruct (detect_tie st).
    - apply (tie_fold_bound 0 _ _ (Z.le_refl 0) H1 H2).
    - inversion H2; subst. exact H1. }
  destruct (detect_chord st).
  - apply bind_ok in H. destruct H as [music3 [H3 H]].
    inversion H; subst; cbn [music].
    apply chord_fold_shape in H3. destruct H3 as [front [last [E1 E2]]].
    subst. apply Forall_app in H2'. destruct H2' as [Hf _].
    apply Forall_app. split; [exact Hf|].
    constructor; [|constructor]. rewrite set_duration_duration. lia.
  - inversion H; subst; cbn [music]. exact H2'.
Qed.

Lemma step_positive (st st' : scan) (m : Match.t) :
  digit_or_empty (Match.duration m) ->
  Match.chord_start m = "" -> Match.duration m <> "0" ->
  detect_chord st = false ->
  durations_from 1 (music st) -> step st m = Ok st' ->
  durations_from 1 (music st') /\ detect_chord st' = false.
Proof.
  intros Hd Hc Hz Hch Hall H. unfold step in H.
  apply bind_ok in H. destruct H as [o [Ho H]].
  apply bind_ok in H. destruct H as [music2 [H2 H]].
  destruct (make_object_duration m o Hd Ho) as [_ Hpos].
  assert (durations_from 1 (music st ++ [o])) as H1.
  { apply Forall_app. split; [exact Hall|].
    constructor; [exact (Hpos Hz)|constructor]. }
  assert (durations_from 1 music2) as H2'.
  { destruct (detect_tie st).
    - apply (tie_fold_bound 1 _ _ ltac:(lia) H1 H2).
    - inversion H2; subst. exact H1. }
  rewrite Hch in H. inversion H; subst; cbn [music detect_chord].
  split; [exact H2'|]. rewrite Hc. reflexivity.
Qed.

Lemma scan_nonnegative (ms : list Match.t) (st st' : scan) :
  Forall (fun m => digit_or_empty (Match.duration m)) ms ->
  durations_from 0 (music st) -> foldM step ms st = Ok st' ->
  durations_from 0 (music st').
Proof.
  revert st. induction ms as [|m ms IH]; intros st Hms Hall H.
  - inversion H; subst. exact Hall.
  - cbn [foldM] in H. apply bind_ok in H. destruct H as [st1 [H1 H]].
    inversion Hms; subst.
    apply (IH st1); [assumption | | exact H].
    apply (step_nonnegative st st1 m); assumption.
Qed.

Lemma scan_positive (ms : list Match.t) (st st' : scan) :
  Forall (fun m => digit_or_empty (Match.duration m)) ms ->
  Forall (fun m => Match.chord_start m = "" /\ Match.duration m <> "0") ms ->
  detect_chord st = false ->
  durations_from 1 (music st) -> foldM step ms st = Ok st' ->
  durations_from 1 (music st').
Proof.
  revert st. induction ms as [|m ms IH]; intros st Hms Hok Hch Hall H.
  - inversion H; subst. exact Hall.
  - cbn [foldM] in H. apply bind_ok in H. destruct H as [st1 [H1 H]].
    inversion Hms; subst. inversion Hok as [|? ? [Hc Hz] Hok']; subst.
    destruct (step_positive st st1 m) as [P C]; try assumption.
    apply (IH st1); assumption.
Qed.

(** ** Runs of accidental marks *)

Lemma mark_facts (c : ascii) :
  is_accidental_mark c = true ->
  kept c = true /\ Ascii.eqb c " " = false /\ Ascii.eqb c "-" = false /\
  Ascii.eqb "[" c = false.
Proof.
  unfold is_accidental_mark. intros H.
  apply orb_true_iff in H. destruct H as [H|H];
    [apply orb_true_iff in H; destruct H as [H|H]|];
    apply Ascii.eqb_eq in H; subst c; repeat split; reflexivity.
Qed.

Lemma base_note_facts (l : ascii) :
  In l Note.base_notes ->
  is_alpha l = true /\ is_accidental_mark l = false /\ kept l = true /\
  Ascii.eqb l " " = false /\ Ascii.eqb l "-" = false /\
  (forall t, str_in (lower (String l t)) ["z"; "x"] = false).
Proof.
  intros H. simpl in H.
  repeat (destruct H as [H|H]; [subst l; repeat split; reflexivity|]).
  contradiction.
Qed.

Lemma normalize_spaces_cons (c : ascii) (t : string) :
  Ascii.eqb c " " = false ->
  normalize_spaces (String c t) = String c (normalize_spaces t).
Proof.
  intros H. destruct t as [|c' t']; simpl; [reflexivity|].
  rewrite H. reflexivity.
Qed.

Lemma join_ties_cons (c : ascii) (t : string) :
  Ascii.eqb c "-" = false ->
  join_ties (String c t) = String c (join_ties t).
Proof.
  intros H. destruct t as [|c' t']; simpl; [reflexivity|].
  rewrite H. reflexivity.
Qed.

Lemma strip_decorators_cons (c : ascii) (t : string) :
  kept c = true -> Ascii.eqb c " " = false -> Ascii.eqb c "-" = false ->
  strip_decorators (String c t) = String c (strip_decorators t).
Proof.
  intros Hk Hs Ht. unfold strip_decorators.
  cbn [filter_string]. rewrite Hk.
  rewrite (normalize_spaces_cons c _ Hs), (join_ties_cons c _ Ht).
  reflexivity.
Qed.

Lemma strip_decorators_run (run : string) (l : ascii) (rest : string) :
  all_chars is_accidental_mark run = true -> In l Note.base_notes ->
  strip_decorators (run ++ String l rest)%string
  = (run ++ String l (strip_decorators rest))%string.
Proof.
  intros Hrun Hl. induction run as [|c run IH]; simpl.
  - destruct (base_note_facts l Hl) as [_ [_ [Hk [Hs [Ht _]]]]].
    apply strip_decorators_cons; assumption.
  - simpl in Hrun. apply andb_true_iff in Hrun. destruct Hrun as [Hc Hrun].
    destruct (mark_facts c Hc) as [Hk [Hs [Ht _]]].
    rewrite (strip_decorators_cons c _ Hk Hs Ht), (IH Hrun). reflexivity.
Qed.

Lemma take_while_run (run : string) (l : ascii) (rest : string) :
  all_chars is_accidental_mark run = true -> is_accidental_mark l = false ->
  take_while is_accidental_mark (run ++ String l rest)%string
  = (run, String l rest).
Proof.
  intros Hrun Hl. induction run as [|c run IH]; simpl.
  - rewrite Hl. reflexivity.
  - simpl in Hrun. apply andb_true_iff in Hrun. destruct Hrun as [Hc Hrun].
    rewrite Hc, (IH Hrun). reflexivity.
Qed.

Lemma match_at_run (c : ascii) (run : string) (l : ascii) (rest : string) :
  all_chars is_accidental_mark (String c run) = true ->
  In l Note.base_notes ->
  exists octave duration chord_end tie,
    match_at (String c run ++ String l rest)%string
    = Some (Match.mk "" (String c run) (String l octave)
              duration chord_end tie).
Proof.
  intros Hrun Hl.
  destruct (base_note_facts l Hl) as [Ha [Hm _]].
  assert (Ascii.eqb "[" c = false) as Hb.
  { simpl in Hrun. apply andb_true_iff in Hrun. destruct Hrun as [Hc _].
    apply (mark_facts c Hc). }
  unfold match_at.
  change (String c run ++ String l rest)%string
    with (String c (run ++ String l rest)%string).
  cbn [take_if]. rewrite Hb.
  change (String c (run ++ String l rest)%string)
    with (String c run ++ String l rest)%string.
  rewrite (take_while_run _ l rest Hrun Hm), Ha.
  destruct (take_if is_octave_mark rest) as [octave s4].
  destruct (take_if is_digit s4) as [duration s5].
  destruct (take_if (Ascii.eqb "]") s5) as [chord_end s6].
  destruct (take_if (Ascii.eqb "-") s6) as [tie s7].
  exists octave, duration, chord_end, tie. reflexivity.
Qed.

Lemma accidental_unassigned (s : string) :
  s <> "^" -> s <> "=" -> s <> "_" ->
  Accidental.value (Accidental.__init__ s) = None.
Proof.
  intros H1 H2 H3. unfold Accidental.__init__. simpl.
  apply String.eqb_neq in H1, H2, H3. rewrite H1, H2, H3. reflexivity.
Qed.

Lemma long_run_is_no_mark (s : string) :
  (2 <= String.length s)%nat -> s <> "^" /\ s <> "=" /\ s <> "_".
Proof.
  intros H. repeat split; intros ->; simpl in H; lia.
Qed.

Lemma make_object_run (m : Match.t) (l : ascii) (octave : string) :
  (2 <= String.length (Match.accidentals m))%nat ->
  Match.name m = String l octave -> In l Note.base_notes ->
  digit_or_empty (Match.duration m) ->
  make_object m = Raise (AttributeError "value").
Proof.
  intros Hlen Hname Hl Hd.
  destruct (base_note_facts l Hl) as [_ [_ [_ [_ [_ Hrest]]]]].
  destruct (init_duration _ Hd) as [z [Hz _]].
  destruct (base_note_value l Hl) as [b [_ Hb]].
  destruct (long_run_is_no_mark _ Hlen) as [N1 [N2 N3]].
  unfold make_object. rewrite Hname, Hrest.
  replace (0 <? len (Match.accidentals m)) with true
    by (symmetry; apply Z.ltb_lt; unfold len; lia).
  unfold Note.__init__. rewrite Hz. cbn [bind].
  unfold Note._update_value, Note.compute_value.
  destruct (Note.index l Note.base_notes) as [i|e]; [|discriminate Hb].
  cbn [bind] in Hb |- *. rewrite Hb. cbn [bind].
  unfold Accidental.get_value.
  rewrite (accidental_unassigned _ N1 N2 N3). reflexivity.
Qed.

(** ** Key signature and header fields on concrete files *)

(** C1. With the key [C ^c], the C and the c without octave mark are made
    sharp and their values recomputed, and the c that is already flat
    is left alone; but the C with a comma and the c with an apostrophe
    keep no accidental and their old values. The test compares the whole
    lowered name with the letter, where [_update_value] takes the first
    character of the name: a note whose name has an octave mark is never
    touched, whatever the token. *)
Theorem key_signature_misses_octave_marks :
  (exists doc,
     ParseAbcFile
       "%abc
X:1
T:Tune
K:C ^c
C C, c c' _c
" = Ok doc /\
     AbcFile.music doc =
     [MusicObject.Note "C" (Some (Accidental.__init__ "^")) 1 41;
      MusicObject.Note "C," None 1 28;
      MusicObject.Note "c" (Some (Accidental.__init__ "^")) 1 53;
      MusicObject.Note "c'" None 1 64;
      MusicObject.Note "c" (Some (Accidental.__init__ "_")) 1 51]) /\
  (forall mark letter l o tail a d v,
     let n := MusicObject.Note (String l (String o tail)) a d v in
     AbcFile.mark_note mark (String letter "") n = Ok n).
Proof.
  split.
  - eexists. split; reflexivity.
  - intros mark letter l o tail a d v. unfold AbcFile.mark_note. simpl.
    destruct (Ascii.eqb (lower_char l) letter); reflexivity.
Qed.

(** C5. A key that is empty or does not start with C is refused, but the
    key [Cm], and any other that merely starts with C, is accepted and
    the document is built; the test reads the first character only. *)
Theorem key_test_reads_first_character :
  ParseAbcFile
      "%abc
X:1
T:Tune
K:
C
" = Raise AbcFile.key_error /\
  ParseAbcFile
      "%abc
X:1
T:Tune
K:G
C
" = Raise AbcFile.key_error /\
  (exists doc,
     ParseAbcFile
      "%abc
X:1
T:Tune
K:Cm
C
" = Ok doc /\
     AbcFile.music doc = [MusicObject.Note "C" None 1 40]) /\
  (forall key music0,
     AbcFile._propagate_key_signature
       [InformationField.mk "K" (PyTuple ["K"; String "C" key])] music0
     = foldM AbcFile.apply_token (tl (split " " (String "C" key))) music0).
Proof.
  split; [reflexivity|]. split; [reflexivity|]. split.
  - eexists. split; reflexivity.
  - intros key music0. reflexivity.
Qed.

Lemma matcher_groups (c : ascii) (rest : string) :
  is_alpha c = true -> all_chars is_dot rest = true ->
  InformationFieldMatcher (String c (String ":" rest))
  = Some (String c "", rest).
Proof.
  intros Hc Hrest. unfold InformationFieldMatcher.
  rewrite Hc. replace (Ascii.eqb ":" ":") with true by reflexivity.
  cbn [andb].
  assert (take_while is_dot rest = (rest, "")) as ->; [|reflexivity].
  induction rest as [|x t IH]; simpl; [reflexivity|].
  simpl in Hrest. apply andb_true_iff in Hrest. destruct Hrest as [Hx Ht].
  rewrite Hx, (IH Ht). reflexivity.
Qed.

(** C6. The field read from the line [k:C ^f] has the upper-case key K,
    but its value is the tuple of both groups of the match, the letter as
    written and the text after the colon, not that text alone; the
    document read from a file holds such tuples. *)
Theorem field_value_is_group_tuple :
  read_header (readlines "k:C ^f
") [] 1
  = ([InformationField.mk "K" (PyTuple ["k"; "C ^f"])], 2%nat) /\
  InformationField.value (make_field ("k", "C ^f")) <> PyStr "C ^f" /\
  (exists doc,
     ParseAbcFile
       "%abc
X:1
T:Tune
k:C ^f
f
" = Ok doc /\
     map InformationField.value (AbcFile.fields doc)
     = [PyTuple ["X"; "1"]; PyTuple ["T"; "Tune"]; PyTuple ["k"; "C ^f"]]).
Proof.
  split; [reflexivity|]. split; [discriminate|].
  eexists. split; reflexivity.
Qed.

(** ** What strip_decorators leaves *)

Lemma filter_string_all (p : ascii -> bool) (s : string) :
  all_chars p (filter_string p s) = true.
Proof.
  induction s as [|c t IH]; simpl; [reflexivity|].
  destruct (p c) eqn:E; [simpl; rewrite E, IH; reflexivity | exact IH].
Qed.

Lemma filter_string_id (p : ascii -> bool) (s : string) :
  all_chars p s = true -> filter_string p s = s.
Proof.
  induction s as [|c t IH]; simpl; [reflexivity|].
  intros H. apply andb_true_iff in H. destruct H as [Hc Ht].
  rewrite Hc, (IH Ht). reflexivity.
Qed.

Lemma normalize_spaces_all (p : ascii -> bool) (s : string) :
  all_chars p s = true -> all_chars p (normalize_spaces s) = true.
Proof.
  induction s as [|c t IH]; [reflexivity|].
  intros H. cbn [all_chars] in H. apply andb_true_iff in H.
  destruct H as [Hc Ht]. specialize (IH Ht).
  cbn [normalize_spaces]. destruct t as [|c' t']; [simpl; rewrite Hc; reflexivity|].
  destruct (Ascii.eqb c " " && Ascii.eqb c' " "); [exact IH|].
  cbn [all_chars]. rewrite Hc. exact IH.
Qed.

Lemma normalize_spaces_first (s : string) :
  first_char (normalize_spaces s) = first_char s.
Proof.
  induction s as [|c t IH]; [reflexivity|].
  cbn [normalize_spaces]. destruct t as [|c' t']; [reflexivity|].
  destruct (Ascii.eqb c " " && Ascii.eqb c' " ") eqn:E; [|reflexivity].
  rewrite IH. apply andb_true_iff in E. destruct E as [E1 E2].
  apply Ascii.eqb_eq in E1, E2. subst. reflexivity.
Qed.

Lemma no_pair_cons (a b c : ascii) (t : string) :
  no_pair a b (String c t) =
  match first_char t with
  | Some c' => negb (Ascii.eqb c a && Ascii.eqb c' b) && no_pair a b t
  | None => true
  end.
Proof. destruct t; reflexivity. Qed.

Lemma normalize_spaces_no_run (s : string) :
  no_pair " " " " (normalize_spaces s) = true.
Proof.
  induction s as [|c t IH]; [reflexivity|].
  cbn [normalize_spaces]. destruct t as [|c' t']; [reflexivity|].
  destruct (Ascii.eqb c " " && Ascii.eqb c' " ") eqn:E; [exact IH|].
  rewrite no_pair_cons, normalize_spaces_first. cbn [first_char].
  rewrite E, IH. reflexivity.
Qed.

Lemma normalize_spaces_id (s : string) :
  no_pair " " " " s = true -> normalize_spaces s = s.
Proof.
  induction s as [|c t IH]; [reflexivity|].
  intros H. cbn [normalize_spaces]. destruct t as [|c' t']; [reflexivity|].
  cbn [no_pair] in H. apply andb_true_iff in H. destruct H as [H1 H2].
  apply negb_true_iff in H1. rewrite H1, (IH H2). reflexivity.
Qed.

Lemma join_ties_pair (c c' : ascii) (t : string) :
  join_ties (String c (String c' t)) =
  if Ascii.eqb c "-" && Ascii.eqb c' " " then String "-" (join_ties t)
  else String c (join_ties (String c' t)).
Proof. reflexivity. Qed.

(** [join_ties] goes two characters ahead; the facts about it are proved
    for every text up to a length. *)
Lemma join_ties_facts (n : nat) (s : string) :
  (String.length s <= n)%nat ->
  first_char (join_ties s) = first_char s /\
  (forall p, all_chars p s = true -> all_chars p (join_ties s) = true) /\
  (no_pair " " " " s = true ->
   no_pair " " " " (join_ties s) = true /\
   no_pair "-" " " (join_ties s) = true).
Proof.
  revert s. induction n as [|n IH]; intros s Hlen.
  - destruct s; [|simpl in Hlen; lia]. repeat split; reflexivity.
  - destruct s as [|c t]; [repeat split; reflexivity|].
    destruct t as [|c' t']; [repeat split; try reflexivity; intros p H; exact H|].
    simpl in Hlen. rewrite join_ties_pair.
    destruct (Ascii.eqb c "-" && Ascii.eqb c' " ") eqn:E.
    + apply andb_true_iff in E. destruct E as [E1 E2].
      apply Ascii.eqb_eq in E1, E2. subst c c'.
      destruct (IH t' ltac:(lia)) as [F [A P]].
      split; [reflexivity|]. split.
      * intros p H. cbn [all_chars] in H |- *.
        apply andb_true_iff in H. destruct H as [H1 H].
        apply andb_true_iff in H. destruct H as [_ H].
        rewrite H1, (A p H). reflexivity.
      * intros H. rewrite no_pair_cons in H. cbn [first_char] in H.
        apply andb_true_iff in H. destruct H as [_ H].
        rewrite no_pair_cons in H.
        rewrite !no_pair_cons, F.
        destruct (first_char t') as [x|] eqn:Ex; [|split; reflexivity].
        apply andb_true_iff in H. destruct H as [Hx H].
        destruct (P H) as [P1 P2]. rewrite P1, P2.
        replace (Ascii.eqb "-" " ") with false by reflexivity.
        replace (Ascii.eqb "-" "-") with true by reflexivity.
        replace (Ascii.eqb " " " ") with true in Hx by reflexivity.
        cbn [andb] in Hx |- *. rewrite Hx. split; reflexivity.
    + destruct (IH (String c' t') ltac:(simpl; lia)) as [F [A P]].
      split; [reflexivity|]. split.
      * intros p H. cbn [all_chars] in H.
        apply andb_true_iff in H. destruct H as [H1 H].
        change (all_chars p (String c (join_ties (String c' t'))))
          with (p c && all_chars p (join_ties (String c' t'))).
        rewrite H1. apply (A p). exact H.
      * intros H. rewrite no_pair_cons in H. cbn [first_char] in H.
        apply andb_true_iff in H. destruct H as [Hx H].
        destruct (P H) as [P1 P2].
        rewrite !no_pair_cons, F. cbn [first_char].
        rewrite Hx, E, P1, P2. split; reflexivity.
Qed.

Lemma join_ties_id (s : string) :
  no_pair "-" " " s = true -> join_ties s = s.
Proof.
  induction s as [|c t IH]; [reflexivity|].
  intros H. cbn [join_ties]. destruct t as [|c' t']; [reflexivity|].
  cbn [no_pair] in H. apply andb_true_iff in H. destruct H as [H1 H2].
  apply negb_true_iff in H1. rewrite H1, (IH H2). reflexivity.
Qed.

(** X1. Whatever the text, [strip_decorators] leaves only letters,
    digits, white space and the characters / - ^ _ , ' = [ ]; no two
    spaces follow each other and no space follows a tie mark. *)
Theorem strip_decorators_output (content : string) :
  all_chars kept (strip_decorators content) = true /\
  no_pair " " " " (strip_decorators content) = true /\
  no_pair "-" " " (strip_decorators content) = true.
Proof.
  unfold strip_decorators.
  set (s := normalize_spaces (filter_string kept content)).
  destruct (join_ties_facts (String.length s) s (Nat.le_refl _)) as [_ [A P]].
  split.
  - apply A. apply normalize_spaces_all, filter_string_all.
  - apply P. apply normalize_spaces_no_run.
Qed.

(** X2. Cleaning a text that is already clean changes nothing:
    [strip_decorators] applied twice is [strip_decorators] applied
    once. *)
Theorem strip_decorators_idempotent (content : string) :
  strip_decorators (strip_decorators content) = strip_decorators content.
Proof.
  set (s := normalize_spaces (filter_string kept content)).
  destruct (join_ties_facts (String.length s) s (Nat.le_refl _)) as [_ [A P]].
  assert (all_chars kept (join_ties s) = true) as K.
  { apply A. apply normalize_spaces_all, filter_string_all. }
  destruct (P (normalize_spaces_no_run _)) as [P1 P2].
  change (strip_decorators content) with (join_ties s).
  unfold strip_decorators at 1.
  rewrite (filter_string_id kept _ K), (normalize_spaces_id _ P1).
  apply join_ties_id. exact P2.
Qed.

(** ** The matches of the body pattern *)

Lemma take_if_spec (p : ascii -> bool) (s x r : string) :
  take_if p s = (x, r) -> s = (x ++ r)%string /\ at_most_one p x.
Proof.
  destruct s as [|c t]; simpl.
  - intros H. inversion H. split; [reflexivity | left; reflexivity].
  - destruct (p c) eqn:E; intros H; inversion H; subst.
    + split; [reflexivity|]. right. exists c. split; [exact E | reflexivity].
    + split; [reflexivity | left; reflexivity].
Qed.

Lemma take_while_spec (p : ascii -> bool) (s x r : string) :
  take_while p s = (x, r) -> s = (x ++ r)%string /\ all_chars p x = true.
Proof.
  revert x r. induction s as [|c t IH]; intros x r; simpl.
  - intros H. inversion H. split; reflexivity.
  - destruct (p c) eqn:E.
    + destruct (take_while p t) as [x' r'] eqn:Et. intros H. inversion H; subst.
      destruct (IH x' r eq_refl) as [E1 E2].
      split; [simpl; rewrite <- E1; reflexivity|].
      simpl. rewrite E, E2. reflexivity.
    + intros H. inversion H; subst. split; reflexivity.
Qed.

Lemma append_assoc (a b c : string) :
  ((a ++ b) ++ c)%string = (a ++ (b ++ c))%string.
Proof.
  induction a as [|x a IH]; simpl; [reflexivity|]. rewrite IH. reflexivity.
Qed.

Lemma match_at_spec (s : string) (m : Match.t) :
  match_at s = Some m ->
  well_formed m /\ exists rest, s = (matched_text m ++ rest)%string.
Proof.
  unfold match_at.
  destruct (take_if (Ascii.eqb "[") s) as [cs s1] eqn:E0.
  destruct (take_while is_accidental_mark s1) as [acc s2] eqn:E1.
  destruct s2 as [|l s3]; [discriminate|].
  destruct (is_alpha l) eqn:El; [|discriminate].
  destruct (take_if is_octave_mark s3) as [oct s4] eqn:E3.
  destruct (take_if is_digit s4) as [dur s5] eqn:E4.
  destruct (take_if (Ascii.eqb "]") s5) as [ce s6] eqn:E5.
  destruct (take_if (Ascii.eqb "-") s6) as [ti s7] eqn:E6.
  intros H. inversion H; subst m. clear H.
  apply take_if_spec in E0, E3, E4, E5, E6. apply take_while_spec in E1.
  destruct E0 as [S0 W0]. destruct E1 as [S1 W1]. destruct E3 as [S3 W3].
  destruct E4 as [S4 W4]. destruct E5 as [S5 W5]. destruct E6 as [S6 W6].
  split.
  - unfold well_formed. simpl.
    split; [exact W0|]. split; [exact W1|].
    split; [exists l, oct; split; [reflexivity|]; split; assumption|].
    split; [exact W4|]. split; assumption.
  - exists s7. unfold matched_text. simpl.
    subst s s1 s3 s4 s5 s6.
    repeat (rewrite append_assoc || cbn [String.append]). reflexivity.
Qed.

Lemma finditer_from_all (P : Match.t -> Prop) (s : string) (skip : nat) :
  (forall t m, match_at t = Some m -> P m) ->
  Forall P (finditer_from skip s).
Proof.
  intros HP. revert skip. induction s as [|c t IH]; intros skip; simpl.
  - constructor.
  - destruct skip as [|k]; [|apply IH].
    destruct (match_at (String c t)) as [m|] eqn:E; [|apply IH].
    constructor; [apply (HP _ _ E) | apply IH].
Qed.

(** X3. Every match found in a body has the shape of the pattern: an
    opening bracket or nothing, a run of accidental marks, a letter with
    at most one octave mark as the name, at most one digit, a closing
    bracket or nothing, a tie mark or nothing. *)
Theorem finditer_well_formed (content : string) :
  Forall well_formed (finditer content).
Proof.
  apply finditer_from_all. intros t m H. apply (match_at_spec t m H).
Qed.

Lemma digit_not_alpha (c : ascii) : is_digit c = true -> is_alpha c = false.
Proof.
  unfold is_digit, is_alpha, is_upper, is_lower, between. intros H.
  apply andb_true_iff in H. destruct H as [H1 H2].
  apply N.leb_le in H1, H2.
  apply orb_false_iff. split; apply andb_false_iff; left; apply N.leb_gt; lia.
Qed.

Lemma mark_not_alpha (c : ascii) :
  is_accidental_mark c = true -> is_alpha c = false.
Proof.
  unfold is_accidental_mark. intros H.
  apply orb_true_iff in H. destruct H as [H|H];
    [apply orb_true_iff in H; destruct H as [H|H]|];
    apply Ascii.eqb_eq in H; subst c; reflexivity.
Qed.

Lemma octave_not_alpha (c : ascii) :
  is_octave_mark c = true -> is_alpha c = false.
Proof.
  unfold is_octave_mark. intros H.
  apply orb_true_iff in H. destruct H as [H|H];
    apply Ascii.eqb_eq in H; subst c; reflexivity.
Qed.

Lemma other_not_alpha (x c : ascii) :
  is_alpha x = false -> Ascii.eqb x c = true -> is_alpha c = false.
Proof. intros Hx H. apply Ascii.eqb_eq in H. subst c. exact Hx. Qed.

Lemma length_append (a b : string) :
  String.length (a ++ b)%string = (String.length a + String.length b)%nat.
Proof. induction a as [|x a IH]; simpl; [reflexivity|]. rewrite IH. reflexivity. Qed.

Lemma count_if_append (p : ascii -> bool) (a b : string) :
  count_if p (a ++ b)%string = (count_if p a + count_if p b)%nat.
Proof. induction a as [|x a IH]; simpl; [reflexivity|]. rewrite IH. lia. Qed.

Lemma at_most_one_no_alpha (p : ascii -> bool) (x : string) :
  (forall c, p c = true -> is_alpha c = false) ->
  at_most_one p x -> count_if is_alpha x = O.
Proof.
  intros Hp [->|[c [Hc ->]]]; [reflexivity|].
  simpl. rewrite (Hp c Hc). reflexivity.
Qed.

Lemma all_chars_no_alpha (p : ascii -> bool) (x : string) :
  (forall c, p c = true -> is_alpha c = false) ->
  all_chars p x = true -> count_if is_alpha x = O.
Proof.
  intros Hp. induction x as [|c t IH]; simpl; [reflexivity|].
  intros H. apply andb_true_iff in H. destruct H as [Hc Ht].
  rewrite (Hp c Hc), (IH Ht). reflexivity.
Qed.

Lemma matched_text_one_letter (m : Match.t) :
  well_formed m -> count_if is_alpha (matched_text m) = 1%nat.
Proof.
  intros [W0 [W1 [[l [oct [Hn [Hl Wo]]]] [W4 [W5 W6]]]]].
  unfold matched_text. rewrite !count_if_append, Hn.
  rewrite (at_most_one_no_alpha _ _ (fun c => other_not_alpha "[" c eq_refl) W0).
  rewrite (all_chars_no_alpha _ _ mark_not_alpha W1).
  rewrite (at_most_one_no_alpha _ _ digit_not_alpha W4).
  rewrite (at_most_one_no_alpha _ _ (fun c => other_not_alpha "]" c eq_refl) W5).
  rewrite (at_most_one_no_alpha _ _ (fun c => other_not_alpha "-" c eq_refl) W6).
  cbn [count_if]. rewrite Hl.
  rewrite (at_most_one_no_alpha _ _ octave_not_alpha Wo). reflexivity.
Qed.

Lemma matched_text_length (m : Match.t) :
  String.length (matched_text m) = Match.span m.
Proof.
  unfold matched_text, Match.span. rewrite !length_append. lia.
Qed.

Lemma finditer_from_skip (pre rest : string) :
  finditer_from (String.length pre) (pre ++ rest)%string
  = finditer_from 0 rest.
Proof. induction pre as [|c pre IH]; simpl; [reflexivity | exact IH]. Qed.

Lemma match_at_letter (c : ascii) (t : string) :
  is_alpha c = true -> exists m, match_at (String c t) = Some m.
Proof.
  intros Hc. unfold match_at.
  assert (Ascii.eqb "[" c = false) as Hb.
  { destruct (Ascii.eqb "[" c) eqn:E; [|reflexivity].
    rewrite (other_not_alpha "[" c eq_refl E) in Hc. discriminate. }
  assert (is_accidental_mark c = false) as Hm.
  { destruct (is_accidental_mark c) eqn:E; [|reflexivity].
    rewrite (mark_not_alpha c E) in Hc. discriminate. }
  cbn [take_if take_while]. rewrite Hb. cbn [take_while]. rewrite Hm, Hc.
  destruct (take_if is_octave_mark t) as [oct s4].
  destruct (take_if is_digit s4) as [dur s5].
  destruct (take_if (Ascii.eqb "]") s5) as [ce s6].
  destruct (take_if (Ascii.eqb "-") s6) as [ti s7].
  eexists. reflexivity.
Qed.

(** After a match the scan goes on with what the match left. *)
Lemma finditer_after_match (c : ascii) (t : string) (m : Match.t) :
  match_at (String c t) = Some m ->
  exists rest,
    String c t = (matched_text m ++ rest)%string /\
    finditer_from 0 (String c t) = m :: finditer_from 0 rest.
Proof.
  intros H. destruct (match_at_spec _ _ H) as [W [rest E]].
  exists rest. split; [exact E|].
  pose proof (matched_text_one_letter m W) as Hone.
  pose proof (matched_text_length m) as Hlen.
  destruct (matched_text m) as [|c' pre]; [discriminate Hone|].
  simpl in E. inversion E; subst.
  cbn [finditer_from]. rewrite H. simpl in Hlen. rewrite <- Hlen.
  cbn [Nat.pred]. rewrite finditer_from_skip. reflexivity.
Qed.

Lemma finditer_count (n : nat) (s : string) :
  (String.length s <= n)%nat ->
  List.length (finditer_from 0 s) = count_if is_alpha s.
Proof.
  revert s. induction n as [|n IH]; intros s Hlen.
  - destruct s; [reflexivity | simpl in Hlen; lia].
  - destruct s as [|c t]; [reflexivity|]. simpl in Hlen.
    destruct (match_at (String c t)) as [m|] eqn:E.
    + destruct (finditer_after_match c t m E) as [rest [Es Ef]].
      destruct (match_at_spec _ _ E) as [W _].
      rewrite Ef, Es, count_if_append, (matched_text_one_letter m W).
      cbn [List.length Nat.add]. f_equal. apply IH.
      apply (f_equal String.length) in Es. rewrite length_append in Es.
      pose proof (matched_text_one_letter m W) as Hone.
      destruct (matched_text m); [discriminate Hone|].
      simpl in Es. lia.
    + cbn [finditer_from count_if]. rewrite E.
      destruct (is_alpha c) eqn:Hc.
      * destruct (match_at_letter c t Hc) as [m Hm]. rewrite Hm in E. discriminate.
      * simpl. apply IH. lia.
Qed.

(** X4. A body has as many matches as it has letters: every letter is
    the name letter of exactly one match, and nothing else starts one. *)
Theorem finditer_one_match_per_letter (content : string) :
  List.length (finditer content) = count_if is_alpha content.
Proof.
  apply (finditer_count (String.length content)). apply Nat.le_refl.
Qed.

(** ** Which bodies are read, and how they fail *)

Lemma in_table_iff (l : ascii) : in_table l = true <-> In l Note.base_notes.
Proof.
  unfold in_table. rewrite existsb_exists. split.
  - intros [x [Hx E]]. apply Ascii.eqb_eq in E. subst. exact Hx.
  - intros H. exists l. split; [exact H | apply Ascii.eqb_refl].
Qed.

Lemma index_error (n : ascii) (l : list ascii) (e : exn) :
  Note.index n l = Raise e -> e = ValueError "is not in list".
Proof.
  induction l as [|x r IH]; simpl; intros H.
  - inversion H. reflexivity.
  - destruct (Ascii.eqb x n); [discriminate|].
    destruct (Note.index n r) as [i|e']; [discriminate|].
    simpl in H. inversion H; subst. apply IH. reflexivity.
Qed.

(** The accidental [make_object] passes on, as an optional mark. *)
Lemma make_object_accidental (accs : string) :
  (if 0 <? len accs then Some (Accidental.__init__ accs) else None)
  = option_map Accidental.__init__
      (if (0 <? String.length accs)%nat then Some accs else None).
Proof.
  unfold len. destruct accs as [|c t]; [reflexivity|].
  replace (0 <? Z.of_nat (String.length (String c t))) with true
    by (symmetry; apply Z.ltb_lt; simpl String.length; lia).
  reflexivity.
Qed.

Lemma one_mark (accs : string) :
  all_chars is_accidental_mark accs = true ->
  (String.length accs <= 1)%nat ->
  is_mark (if (0 <? String.length accs)%nat then Some accs else None).
Proof.
  intros Ha Hl. destruct accs as [|c t]; [left; reflexivity|].
  destruct t as [|c' t']; [|simpl in Hl; lia].
  simpl in Ha. rewrite andb_true_r in Ha. unfold is_accidental_mark in Ha.
  apply orb_true_iff in Ha. destruct Ha as [Ha|Ha];
    [apply orb_true_iff in Ha; destruct Ha as [Ha|Ha]|];
    apply Ascii.eqb_eq in Ha; subst c; simpl; unfold is_mark; tauto.
Qed.

Lemma mark_length (accs : string) :
  is_mark (if (0 <? String.length accs)%nat then Some accs else None) ->
  (String.length accs <= 1)%nat.
Proof.
  destruct accs as [|c t]; [simpl; lia|].
  simpl. intros [H|[H|[H|H]]]; inversion H; simpl; lia.
Qed.

Lemma make_object_ok_iff (m : Match.t) :
  well_formed m ->
  ((exists o, make_object m = Ok o) <-> playable m = true).
Proof.
  intros [_ [W1 [[l [oct [Hn [Hl Wo]]]] [W4 _]]]].
  destruct (init_duration _ W4) as [z [Hz _]].
  unfold make_object, playable. rewrite make_object_accidental, Hn.
  destruct (str_in (lower (String l oct)) ["z"; "x"]).
  - split; [reflexivity|]. intros _.
    unfold Rest.__init__. rewrite Hz. eexists. reflexivity.
  - cbn [orb]. unfold Note.__init__. rewrite Hz. cbn [bind].
    unfold Note._update_value. split.
    + intros [o H]. apply bind_ok in H. destruct H as [v [Hv _]].
      destruct (compute_value_inv _ _ _ Hv)
        as [n [tail [b [E [Hin [Hm _]]]]]].
      inversion E; subst. apply andb_true_iff. split.
      * apply in_table_iff. exact Hin.
      * apply Nat.leb_le. apply mark_length. exact Hm.
    + intros H. apply andb_true_iff in H. destruct H as [Hin Hlen].
      apply in_table_iff in Hin. apply Nat.leb_le in Hlen.
      destruct (compute_value_pitch l oct _ Hin (one_mark _ W1 Hlen))
        as [b [_ Hv]].
      rewrite Hv. eexists. reflexivity.
Qed.

Lemma make_object_error (m : Match.t) (e : exn) :
  well_formed m -> make_object m = Raise e -> body_error e.
Proof.
  intros [_ [_ [[l [oct [Hn _]]] [W4 _]]]] H.
  destruct (init_duration _ W4) as [z [Hz _]].
  unfold make_object in H. rewrite Hn in H.
  destruct (str_in (lower (String l oct)) ["z"; "x"]).
  - unfold Rest.__init__ in H. rewrite Hz in H. discriminate.
  - unfold Note.__init__ in H. rewrite Hz in H. cbn [bind] in H.
    unfold Note._update_value, Note.compute_value in H.
    destruct (Note.index l Note.base_notes) as [i|e0] eqn:Ei.
    + destruct (base_note_value l (index_in l _ i Ei)) as [b [_ Hb]].
      rewrite Ei in Hb. cbn [bind] in Hb, H. rewrite Hb in H. cbn [bind] in H.
      destruct (if 0 <? len (Match.accidentals m)
                then Some (Accidental.__init__ (Match.accidentals m))
                else None) as [a|]; [|discriminate].
      unfold Accidental.get_value in H.
      destruct (Accidental.value a); [discriminate|].
      inversion H. right. reflexivity.
    + cbn [bind] in H. inversion H; subst.
      left. apply (index_error l _ _ Ei).
Qed.

Lemma tie_fold_nonempty (music0 : list MusicObject.t) (o : MusicObject.t) :
  music0 <> [] ->
  exists music', tie_fold (music0 ++ [o]) = Ok music' /\ music' <> [] /\
    (List.length music' <= S (List.length music0))%nat.
Proof.
  intros H. destruct (exists_last H) as [front [a E]]. subst music0.
  replace ((front ++ [a]) ++ [o]) with (front ++ [a; o])
    by (rewrite <- app_assoc; reflexivity).
  rewrite tie_fold_pair.
  destruct (String.eqb (MusicObject.name a) (MusicObject.name o));
    eexists; (split; [reflexivity|]); split;
    try (intros C; apply app_eq_nil in C; destruct C; discriminate);
    rewrite !length_app; simpl; lia.
Qed.

Lemma chord_fold_nonempty (music0 : list MusicObject.t) :
  music0 <> [] ->
  exists music', chord_fold music0 = Ok music' /\ music' <> [] /\
    List.length music' = List.length music0.
Proof.
  intros H. destruct (exists_last H) as [front [a E]]. subst music0.
  unfold chord_fold. rewrite unsnoc_snoc. eexists.
  split; [reflexivity|]. split.
  - intros C. apply app_eq_nil in C. destruct C. discriminate.
  - rewrite !length_app. reflexivity.
Qed.

(** A round of the loop fails exactly as [make_object] fails; else it
    leaves a list that is not empty and at most one longer. *)
Lemma step_cases (st : scan) (m : Match.t) :
  tie_has_event st ->
  (exists o st', make_object m = Ok o /\ step st m = Ok st' /\
     music st' <> [] /\
     (List.length (music st') <= S (List.length (music st)))%nat) \/
  (exists e, make_object m = Raise e /\ step st m = Raise e).
Proof.
  intros Inv. unfold step.
  destruct (make_object m) as [o|e]; [left | right; exists e; split; reflexivity].
  exists o. cbn [bind].
  assert (exists music2,
            (if detect_tie st then tie_fold (music st ++ [o])
             else Ok (music st ++ [o])) = Ok music2 /\ music2 <> [] /\
            (List.length music2 <= S (List.length (music st)))%nat)
    as [music2 [E2 [N2 L2]]].
  { destruct (detect_tie st) eqn:Et.
    - apply tie_fold_nonempty. apply Inv. exact Et.
    - eexists. split; [reflexivity|]. split.
      + intros C. apply app_eq_nil in C. destruct C. discriminate.
      + rewrite length_app. simpl. lia. }
  rewrite E2. cbn [bind].
  destruct (detect_chord st).
  - destruct (chord_fold_nonempty music2 N2) as [music3 [E3 [N3 L3]]].
    rewrite E3. cbn [bind]. eexists.
    split; [reflexivity|]. split; [reflexivity|]. cbn [music].
    split; [exact N3 | lia].
  - eexists. split; [reflexivity|]. split; [reflexivity|]. cbn [music].
    split; [exact N2 | exact L2].
Qed.

Lemma scan_outcome (ms : list Match.t) (st : scan) :
  tie_has_event st -> Forall well_formed ms ->
  (Forall (fun m => playable m = true) ms ->
   exists st', foldM step ms st = Ok st') /\
  (forall st', foldM step ms st = Ok st' ->
     Forall (fun m => playable m = true) ms /\
     (List.length (music st') <= List.length (music st) + List.length ms)%nat /\
     (ms <> [] -> music st' <> [])) /\
  (forall e, foldM step ms st = Raise e -> body_error e).
Proof.
  revert st. induction ms as [|m ms IH]; intros st Inv Hwf.
  - split; [intros _; eexists; reflexivity|]. split.
    + intros st' H. inversion H; subst.
      split; [constructor|]. split; [simpl; lia | intros C; contradiction].
    + intros e H. discriminate.
  - inversion Hwf as [|? ? Wm Wms]; subst. cbn [foldM].
    destruct (step_cases st m Inv) as [[o [st1 [Ho [Hs [N1 L1]]]]]|[e [He Hs]]];
      rewrite Hs; cbn [bind].
    + assert (tie_has_event st1) as Inv1 by (intros _; exact N1).
      destruct (IH st1 Inv1 Wms) as [I1 [I2 I3]].
      split; [|split].
      * intros Hp. inversion Hp; subst. apply I1. assumption.
      * intros st' H. destruct (I2 st' H) as [Hp [L N]].
        split; [|split].
        -- constructor; [|exact Hp].
           apply (make_object_ok_iff m Wm). exists o. exact Ho.
        -- simpl. lia.
        -- intros _. destruct ms as [|m' ms'].
           ++ inversion H; subst. exact N1.
           ++ apply N. discriminate.
      * exact I3.
    + split; [|split].
      * intros Hp. inversion Hp as [|? ? Pm _]; subst.
        apply (make_object_ok_iff m Wm) in Pm. destruct Pm as [o Ho].
        rewrite Ho in He. discriminate.
      * intros st' H. discriminate.
      * intros e' H. inversion H; subst.
        apply (make_object_error m e' Wm He).
Qed.

Lemma initial_scan : tie_has_event (mk_scan [] false false).
Proof. intros H. discriminate. Qed.

(** X5. A body is read without error exactly when each of its matches is
    a rest (z or x, either case, no octave mark) or a note whose letter
    is one of the fourteen of the pitch table and that has at most one
    accidental mark before it. *)
Theorem parse_music_succeeds_iff (content : string) :
  (exists music0, parse_music content = Ok music0) <->
  Forall (fun m => playable m = true) (finditer (strip_decorators content)).
Proof.
  unfold parse_music, scan_matches.
  destruct (scan_outcome (finditer (strip_decorators content))
              (mk_scan [] false false) initial_scan
              (finditer_from_all well_formed _ 0
                 (fun t m H => proj1 (match_at_spec t m H))))
    as [I1 [I2 _]].
  split.
  - intros [music0 H]. apply bind_ok in H. destruct H as [st [H _]].
    apply (I2 st H).
  - intros Hp. destruct (I1 Hp) as [st H]. rewrite H. eexists. reflexivity.
Qed.

(** X6. When a body is not read, the exception is the ValueError of the
    lookup of a letter outside the pitch table or the AttributeError of
    an accidental without a value; the negative indices of the loop
    never fall outside the list, so it raises no IndexError. *)
Theorem parse_music_errors (content : string) (e : exn) :
  parse_music content = Raise e ->
  e = ValueError "is not in list" \/ e = AttributeError "value".
Proof.
  unfold parse_music, scan_matches. intros H.
  destruct (scan_outcome (finditer (strip_decorators content))
              (mk_scan [] false false) initial_scan
              (finditer_from_all well_formed _ 0
                 (fun t m H => proj1 (match_at_spec t m H))))
    as [_ [_ I3]].
  destruct (foldM step (finditer (strip_decorators content))
              (mk_scan [] false false)) as [st|e'] eqn:E; [discriminate|].
  inversion H; subst. apply (I3 e eq_refl).
Qed.

Lemma parse_music_errors_witness :
  ValueError "is not in list" = ValueError "is not in list" \/
  ValueError "is not in list" = AttributeError "value".
Proof.
  apply (parse_music_errors "C D H" (ValueError "is not in list")).
  reflexivity.
Defined.

(** X7. A body that is read gives at most as many events as it has
    letters left after cleaning, and at least one event if it has a
    letter at all. *)
Theorem parse_music_length (content : string) (music0 : list MusicObject.t) :
  parse_music content = Ok music0 ->
  (List.length music0 <= count_if is_alpha (strip_decorators content))%nat /\
  (0 < count_if is_alpha (strip_decorators content) -> music0 <> [])%nat.
Proof.
  unfold parse_music, scan_matches. intros H.
  apply bind_ok in H. destruct H as [st [H E]]. inversion E; subst.
  destruct (scan_outcome (finditer (strip_decorators content))
              (mk_scan [] false false) initial_scan
              (finditer_from_all well_formed _ 0
                 (fun t m H => proj1 (match_at_spec t m H))))
    as [_ [I2 _]].
  destruct (I2 st H) as [_ [L N]].
  unfold finditer in L, N.
  rewrite (finditer_count _ _ (Nat.le_refl _)) in L. simpl in L.
  split; [exact L|]. intros Hpos. apply N. intros C.
  apply (f_equal (@List.length _)) in C.
  rewrite (finditer_count _ _ (Nat.le_refl _)) in C. simpl in C. lia.
Qed.

Lemma parse_music_length_witness :
  (List.length [MusicObject.Note "C" None 4 40; MusicObject.Rest 1]
   <= count_if is_alpha (strip_decorators "C2-C2 | z"))%nat /\
  (0 < count_if is_alpha (strip_decorators "C2-C2 | z") ->
   [MusicObject.Note "C" None 4 40; MusicObject.Rest 1] <> [])%nat.
Proof.
  apply (parse_music_length "C2-C2 | z"). reflexivity.
Defined.

(** ** Ties keep the beats *)

Lemma fold_add (l : list Z) (x : Z) :
  fold_left Z.add l x = x + fold_left Z.add l 0.
Proof.
  revert x. induction l as [|y l IH]; intros x; simpl; [lia|].
  rewrite (IH (x + y)), (IH y). lia.
Qed.

Lemma total_duration_app (a b : list MusicObject.t) :
  total_duration (a ++ b) = total_duration a + total_duration b.
Proof.
  unfold total_duration. rewrite map_app, fold_left_app. apply fold_add.
Qed.

Lemma total_duration_one (o : MusicObject.t) :
  total_duration [o] = MusicObject.duration o.
Proof. reflexivity. Qed.

Lemma make_object_beats (m : Match.t) (o : MusicObject.t) :
  make_object m = Ok o -> MusicObject.duration o = beats m.
Proof.
  unfold make_object, beats, Rest.__init__, Note.__init__. intros H.
  destruct (MusicObject.__init__ (Match.duration m)) as [z|e].
  - destruct (str_in (lower (Match.name m)) ["z"; "x"]).
    + inversion H. reflexivity.
    + cbn [bind] in H. unfold Note._update_value in H.
      apply bind_ok in H. destruct H as [v [_ H]]. inversion H. reflexivity.
  - destruct (str_in (lower (Match.name m)) ["z"; "x"]); discriminate.
Qed.

Lemma tie_fold_total (music0 music' : list MusicObject.t) :
  tie_fold music0 = Ok music' -> total_duration music' = total_duration music0.
Proof.
  unfold tie_fold. intros H.
  destruct (unsnoc music0) as [[front last]|] eqn:E1; [|discriminate].
  destruct (unsnoc front) as [[front' prev]|] eqn:E2; [|discriminate].
  destruct (String.eqb (MusicObject.name prev) (MusicObject.name last));
    inversion H; subst; [|reflexivity].
  apply unsnoc_length in E1, E2. subst.
  rewrite !total_duration_app, !total_duration_one, set_duration_duration.
  lia.
Qed.

Lemma step_total (st st' : scan) (m : Match.t) :
  detect_chord st = false -> Match.chord_start m = "" ->
  step st m = Ok st' ->
  total_duration (music st') = total_duration (music st) + beats m /\
  detect_chord st' = false.
Proof.
  intros Hch Hc H. unfold step in H.
  apply bind_ok in H. destruct H as [o [Ho H]].
  apply bind_ok in H. destruct H as [music2 [H2 H]].
  rewrite Hch in H. inversion H; subst; cbn [music detect_chord].
  split; [|rewrite Hc; reflexivity].
  assert (total_duration music2 = total_duration (music st ++ [o])) as ->.
  { destruct (detect_tie st).
    - apply tie_fold_total. exact H2.
    - inversion H2. reflexivity. }
  rewrite total_duration_app, total_duration_one, (make_object_beats m o Ho).
  reflexivity.
Qed.

Lemma scan_total (ms : list Match.t) (st st' : scan) :
  Forall (fun m => Match.chord_start m = "") ms ->
  detect_chord st = false -> foldM step ms st = Ok st' ->
  total_duration (music st')
  = total_duration (music st) + fold_left Z.add (map beats ms) 0.
Proof.
  revert st. induction ms as [|m ms IH]; intros st Hms Hch H.
  - inversion H; subst. simpl. lia.
  - cbn [foldM] in H. apply bind_ok in H. destruct H as [st1 [H1 H]].
    inversion Hms as [|? ? Hm Hms']; subst.
    destruct (step_total st st1 m Hch Hm H1) as [T C].
    rewrite (IH st1 Hms' C H), T. cbn [map fold_left].
    rewrite (fold_add _ (0 + beats m)). lia.
Qed.

(** X8. In a body without chords the beats are kept: the durations of
    the events read add up to the durations written on the matches (the
    digit, or 1 without one), ties or not. *)
Theorem ties_keep_total_duration (content : string)
  (music0 : list MusicObject.t) :
  Forall (fun m => Match.chord_start m = "")
    (finditer (strip_decorators content)) ->
  parse_music content = Ok music0 ->
  total_duration music0
  = fold_left Z.add (map beats (finditer (strip_decorators content))) 0.
Proof.
  intros Hc H. unfold parse_music, scan_matches in H.
  apply bind_ok in H. destruct H as [st [H E]]. inversion E; subst.
  rewrite (scan_total _ (mk_scan [] false false) st Hc eq_refl H).
  reflexivity.
Qed.

Lemma ties_keep_total_duration_witness :
  total_duration [MusicObject.Note "C" None 5 40; MusicObject.Rest 1;
                  MusicObject.Note "D" None 1 42]
  = fold_left Z.add (map beats (finditer (strip_decorators "C2-C3 z-D"))) 0.
Proof.
  apply (ties_keep_total_duration "C2-C3 z-D").
  - repeat constructor.
  - reflexivity.
Defined.

(** ** Key-signature propagation *)

Lemma propagated_refl (o : MusicObject.t) : propagated o o.
Proof.
  unfold propagated. split; [reflexivity|]. split; [reflexivity|].
  destruct o as [d|n [a|] d v]; auto.
Qed.

Lemma propagated_trans (o1 o2 o3 : MusicObject.t) :
  propagated o1 o2 -> propagated o2 o3 -> propagated o1 o3.
Proof.
  intros [N1 [D1 K1]] [N2 [D2 K2]]. unfold propagated.
  split; [congruence|]. split; [congruence|].
  destruct o1 as [d|n [a|] d v]; try exact I; subst o2; exact K2.
Qed.

Lemma mark_note_propagated (mark note : string) (n n' : MusicObject.t) :
  AbcFile.mark_note mark note n = Ok n' -> propagated n n'.
Proof.
  unfold AbcFile.mark_note.
  destruct (String.eqb (lower (MusicObject.name n)) note).
  - destruct n as [d|nm [a|] d v]; simpl; intros H.
    + discriminate.
    + inversion H; subst. apply propagated_refl.
    + unfold Note._update_value in H.
      apply bind_ok in H. destruct H as [v' [_ H]]. inversion H; subst.
      unfold propagated. simpl. auto.
  - intros H. inversion H; subst. apply propagated_refl.
Qed.

Lemma mapM_forall2 {A B : Type} (f : A -> result B) (R : A -> B -> Prop)
  (l : list A) (l' : list B) :
  (forall x y, f x = Ok y -> R x y) -> mapM f l = Ok l' -> Forall2 R l l'.
Proof.
  intros HR. revert l'. induction l as [|x t IH]; intros l' H; simpl in H.
  - inversion H. constructor.
  - apply bind_ok in H. destruct H as [y [Hy H]].
    apply bind_ok in H. destruct H as [ys [Hys H]].
    inversion H; subst. constructor; [apply HR; exact Hy | apply IH; exact Hys].
Qed.

Lemma mapM_in {A B : Type} (f : A -> result B) (l : list A) (l' : list B)
  (x : A) :
  mapM f l = Ok l' -> In x l -> exists y, f x = Ok y.
Proof.
  revert l'. induction l as [|z t IH]; intros l' H Hin; [contradiction|].
  simpl in H. apply bind_ok in H. destruct H as [y [Hy H]].
  apply bind_ok in H. destruct H as [ys [Hys _]].
  destruct Hin as [->|Hin]; [exists y; exact Hy | apply (IH ys Hys Hin)].
Qed.

Lemma forall2_refl {A : Type} (R : A -> A -> Prop) (l : list A) :
  (forall x, R x x) -> Forall2 R l l.
Proof. intros H. induction l; constructor; auto. Qed.

Lemma forall2_trans {A : Type} (R : A -> A -> Prop) (l1 l2 l3 : list A) :
  (forall x y z, R x y -> R y z -> R x z) ->
  Forall2 R l1 l2 -> Forall2 R l2 l3 -> Forall2 R l1 l3.
Proof.
  intros HR H12. revert l3. induction H12 as [|x y t1 t2 Hxy _ IH];
    intros l3 H23; inversion H23; subst; constructor.
  - apply (HR x y); assumption.
  - apply IH. assumption.
Qed.

Lemma apply_token_propagated (music0 music' : list MusicObject.t) (a : string) :
  AbcFile.apply_token music0 a = Ok music' -> Forall2 propagated music0 music'.
Proof.
  unfold AbcFile.apply_token.
  destruct (negb (len a =? 2)).
  - intros H. inversion H; subst. apply forall2_refl, propagated_refl.
  - intros H. apply bind_ok in H. destruct H as [mark [_ H]].
    apply bind_ok in H. destruct H as [letter [_ H]].
    apply (mapM_forall2 _ _ _ _ (mark_note_propagated mark (lower letter)) H).
Qed.

Lemma tokens_propagated (tokens : list string)
  (music0 music' : list MusicObject.t) :
  foldM AbcFile.apply_token tokens music0 = Ok music' ->
  Forall2 propagated music0 music'.
Proof.
  revert music0. induction tokens as [|a r IH]; intros music0 H.
  - inversion H; subst. apply forall2_refl, propagated_refl.
  - cbn [foldM] in H. apply bind_ok in H. destruct H as [music1 [H1 H]].
    apply (forall2_trans _ _ music1 _ propagated_trans).
    + apply (apply_token_propagated _ _ a H1).
    + apply IH. exact H.
Qed.

(** X9. Key-signature propagation returns as many events as it got; it
    changes no name and no duration, returns every rest and every note
    that already had an accidental as it was, and so keeps the beats of
    the tune. *)
Theorem propagation_keeps_events (fields : list InformationField.t)
  (music0 music' : list MusicObject.t) :
  AbcFile._propagate_key_signature fields music0 = Ok music' ->
  Forall2 propagated music0 music' /\
  List.length music' = List.length music0 /\
  map MusicObject.name music' = map MusicObject.name music0 /\
  total_duration music' = total_duration music0.
Proof.
  intros H.
  assert (Forall2 propagated music0 music') as F.
  { unfold AbcFile._propagate_key_signature in H.
    destruct (filter _ fields) as [|f r]; [discriminate|].
    apply bind_ok in H. destruct H as [signature [_ H]].
    destruct signature as [|c s]; [discriminate|].
    destruct (negb (Ascii.eqb c "C")); [discriminate|].
    apply (tokens_propagated _ _ _ H). }
  split; [exact F|]. clear H. unfold total_duration.
  induction F as [|o o' t t' HR _ IH].
  - repeat split.
  - destruct HR as [N [D _]]. destruct IH as [IL [IN IT]].
    simpl. rewrite IL, IN, N, D.
    split; [reflexivity|]. split; [reflexivity|].
    rewrite (fold_add (map MusicObject.duration t')),
            (fold_add (map MusicObject.duration t)), IT.
    reflexivity.
Qed.

Lemma propagation_keeps_events_witness :
  Forall2 propagated
    [MusicObject.Note "f" None 2 57; MusicObject.Rest 1;
     MusicObject.Note "f" (Some (Accidental.__init__ "=")) 1 57]
    [MusicObject.Note "f" (Some (Accidental.__init__ "^")) 2 58;
     MusicObject.Rest 1;
     MusicObject.Note "f" (Some (Accidental.__init__ "=")) 1 57].
Proof.
  apply (propagation_keeps_events [key_field "C ^f"]). reflexivity.
Defined.

Lemma short_tokens_ignored (tokens : list string)
  (music0 : list MusicObject.t) :
  Forall (fun a => String.length a <> 2%nat) tokens ->
  foldM AbcFile.apply_token tokens music0 = Ok music0.
Proof.
  intros H. induction H as [|a r Ha _ IH]; [reflexivity|].
  cbn [foldM]. unfold AbcFile.apply_token at 1.
  replace (len a =? 2) with false
    by (symmetry; apply Z.eqb_neq; unfold len; lia).
  cbn [negb bind]. exact IH.
Qed.

(** X10. Only the pieces of exactly two characters among those that
    follow the first space of the key are applied: a key whose other
    pieces all have another length, such as C alone, Cmaj, or C with an
    accidental not set off by a space, leaves the music as it is. *)
Theorem key_without_tokens (rest : string) (music0 : list MusicObject.t) :
  Forall (fun a => String.length a <> 2%nat) (tl (split " " (String "C" rest))) ->
  AbcFile._propagate_key_signature [key_field (String "C" rest)] music0
  = Ok music0.
Proof.
  intros H. unfold AbcFile._propagate_key_signature, key_field. simpl filter.
  cbn [InformationField.value subscript nth_error bind].
  replace (negb (Ascii.eqb "C" "C")) with false by reflexivity.
  apply short_tokens_ignored. exact H.
Qed.

Lemma key_without_tokens_witness :
  AbcFile._propagate_key_signature [key_field "C^f _bb"]
    [MusicObject.Note "f" None 1 57; MusicObject.Note "b" None 1 63]
  = Ok [MusicObject.Note "f" None 1 57; MusicObject.Note "b" None 1 63].
Proof.
  apply (key_without_tokens "^f _bb").
  simpl. repeat constructor; simpl; lia.
Defined.

Lemma filter_first {A : Type} (p : A -> bool) (pre post : list A) (x : A) :
  Forall (fun y => p y = false) pre -> p x = true ->
  filter p (pre ++ x :: post) = x :: filter p post.
Proof.
  intros Hpre Hx. induction Hpre as [|y r Hy _ IH]; simpl.
  - rewrite Hx. reflexivity.
  - rewrite Hy. exact IH.
Qed.

Lemma filter_none {A : Type} (p : A -> bool) (l : list A) :
  Forall (fun y => p y = false) l -> filter p l = [].
Proof.
  intros H. induction H as [|y r Hy _ IH]; simpl; [reflexivity|].
  rewrite Hy. exact IH.
Qed.

(** X11. The key is taken from the first field named K, whatever fields
    come after it, other K fields included; with no field named K the
    propagation raises IndexError. *)
Theorem first_key_field_decides (pre post : list InformationField.t)
  (f : InformationField.t) (music0 : list MusicObject.t) :
  Forall (fun g => String.eqb (InformationField.name g) "K" = false) pre ->
  (InformationField.name f = "K" ->
   AbcFile._propagate_key_signature (pre ++ f :: post) music0
   = AbcFile._propagate_key_signature [f] music0) /\
  AbcFile._propagate_key_signature pre music0 = Raise IndexError.
Proof.
  intros Hpre. split.
  - intros Hf. unfold AbcFile._propagate_key_signature.
    assert (String.eqb (InformationField.name f) "K" = true) as E
      by (apply String.eqb_eq; exact Hf).
    rewrite (filter_first _ pre post f Hpre E).
    simpl filter. rewrite E. reflexivity.
  - unfold AbcFile._propagate_key_signature.
    rewrite (filter_none _ pre Hpre). reflexivity.
Qed.

Lemma first_key_field_decides_witness :
  AbcFile._propagate_key_signature
    [InformationField.mk "X" (PyTuple ["X"; "1"]); key_field "G";
     key_field "C ^f"] [MusicObject.Note "f" None 1 57]
  = AbcFile._propagate_key_signature [key_field "G"]
      [MusicObject.Note "f" None 1 57] /\
  AbcFile._propagate_key_signature
    [InformationField.mk "X" (PyTuple ["X"; "1"])]
    [MusicObject.Note "f" None 1 57] = Raise IndexError.
Proof.
  split.
  - apply (first_key_field_decides
             [InformationField.mk "X" (PyTuple ["X"; "1"])]
             [key_field "C ^f"] (key_field "G")).
    + repeat constructor.
    + reflexivity.
  - apply (first_key_field_decides
             [InformationField.mk "X" (PyTuple ["X"; "1"])]
             [] (key_field "G")).
    repeat constructor.
Defined.

Lemma mark_note_needs_mark (mark letter : string) (n : string) (d v : Z)
  (o : MusicObject.t) :
  lower n = letter ->
  AbcFile.mark_note mark letter (MusicObject.Note n None d v) = Ok o ->
  is_mark (Some mark).
Proof.
  intros Hn H. unfold AbcFile.mark_note in H. cbn [MusicObject.name] in H.
  rewrite Hn, String.eqb_refl in H. cbn [MusicObject.accidental bind] in H.
  unfold Note.set_accidental, Note._update_value in H.
  apply bind_ok in H. destruct H as [v' [Hv _]].
  destruct (compute_value_inv n (Some mark) v' Hv)
    as [_ [_ [_ [_ [_ [Hm _]]]]]].
  exact Hm.
Qed.

(** X12. A key token whose first character is not one of the three
    marks stops the reading as soon as a note it applies to has no
    accidental: with the key [C] followed by a space and such a token,
    and a note named by the token's letter in the music, no document is
    built. *)
Theorem key_token_needs_mark (mk lt : ascii) (n : string) (d v : Z)
  (music0 : list MusicObject.t) :
  Ascii.eqb mk " " = false -> Ascii.eqb lt " " = false ->
  In (MusicObject.Note n None d v) music0 ->
  lower n = lower (String lt "") ->
  ~ is_mark (Some (String mk "")) ->
  exists e,
    AbcFile.__init__
      [key_field (String "C" (String " " (String mk (String lt ""))))] music0
    = Raise e.
Proof.
  intros Hmk Hlt Hin Hn Hbad.
  unfold AbcFile.__init__, AbcFile._propagate_key_signature, key_field.
  simpl filter. cbn [InformationField.value subscript nth_error bind].
  replace (negb (Ascii.eqb "C" "C")) with false by reflexivity.
  cbn [split]. replace (Ascii.eqb "C" " ") with false by reflexivity.
  replace (Ascii.eqb " " " ") with true by reflexivity.
  rewrite Hmk, Hlt. cbn [tl foldM].
  unfold AbcFile.apply_token. cbn [len String.length Z.of_nat].
  replace (negb (Z.pos (Pos.of_succ_nat 1) =? 2)) with false by reflexivity.
  cbn [subscript String.get bind].
  destruct (mapM (AbcFile.mark_note (String mk "") (lower (String lt "")))
              music0) as [music1|e] eqn:E.
  - exfalso. apply Hbad.
    destruct (mapM_in _ _ _ _ E Hin) as [o Ho].
    apply (mark_note_needs_mark _ _ n d v o Hn Ho).
  - exists e. reflexivity.
Qed.

Lemma key_token_needs_mark_witness :
  exists e,
    AbcFile.__init__ [key_field "C #f"]
      [MusicObject.Rest 1; MusicObject.Note "F" None 1 45] = Raise e.
Proof.
  apply (key_token_needs_mark "#" "f" "F" 1 45).
  - reflexivity.
  - reflexivity.
  - simpl. tauto.
  - reflexivity.
  - intros [H|[H|[H|H]]]; discriminate.
Defined.

(** ** The header *)

Lemma upper_char_upper (c : ascii) :
  is_alpha c = true -> is_upper (upper_char c) = true.
Proof.
  unfold is_alpha, upper_char. intros H.
  destruct (is_lower c) eqn:El.
  - unfold is_lower, is_upper, between, code in *.
    apply andb_true_iff in El. destruct El as [L1 L2].
    apply N.leb_le in L1, L2.
    rewrite N_ascii_embedding by lia.
    apply andb_true_iff. split; apply N.leb_le; lia.
  - rewrite orb_false_r in H. exact H.
Qed.

Lemma matcher_some (line g1 g2 : string) :
  InformationFieldMatcher line = Some (g1, g2) ->
  exists c, is_alpha c = true /\ g1 = String c "".
Proof.
  unfold InformationFieldMatcher.
  destruct line as [|c [|colon rest]]; try discriminate.
  destruct (is_alpha c) eqn:E; [|discriminate].
  destruct (Ascii.eqb colon ":"); [|discriminate].
  intros H. inversion H. exists c. split; [exact E | reflexivity].
Qed.

Lemma make_field_as_read (line g1 g2 : string) :
  InformationFieldMatcher line = Some (g1, g2) ->
  field_as_read (make_field (g1, g2)).
Proof.
  intros H. destruct (matcher_some line g1 g2 H) as [c [Hc ->]].
  exists c, g2. split; [exact Hc|]. split; [apply upper_char_upper; exact Hc|].
  split; reflexivity.
Qed.

Lemma read_header_spec (lines : list string) (acc : list InformationField.t)
  (i : nat) (fields : list InformationField.t) (index : nat) :
  read_header lines acc i = (fields, index) ->
  Forall field_as_read acc ->
  Forall field_as_read fields /\
  (i <= index <= i + List.length lines)%nat /\
  (List.length fields + i <= index + List.length acc)%nat /\
  (index = (i + List.length lines)%nat \/
   exists line, nth_error lines (index - i) = Some line /\
     strip line <> "" /\ InformationFieldMatcher (strip line) = None).
Proof.
  revert acc i. induction lines as [|line rest IH]; intros acc i H Hacc.
  - simpl in H. inversion H; subst. simpl.
    split; [exact Hacc|]. split; [lia|]. split; [lia|]. left. lia.
  - cbn [read_header] in H.
    destruct (negb (len (strip line) =? 0)) eqn:Eb.
    + destruct (InformationFieldMatcher (strip line)) as [[g1 g2]|] eqn:Em.
      * assert (Forall field_as_read (acc ++ [make_field (g1, g2)])) as Hacc'.
        { apply Forall_app. split; [exact Hacc|].
          constructor; [apply (make_field_as_read _ _ _ Em) | constructor]. }
        destruct (IH _ _ H Hacc') as [F [B [L N]]].
        rewrite length_app in L. simpl in L |- *.
        split; [exact F|]. split; [lia|]. split; [lia|].
        destruct N as [N|[l [Hl N]]]; [left; lia|].
        right. exists l. split; [|exact N].
        replace (index - i)%nat with (S (index - S i)) by lia. exact Hl.
      * inversion H; subst. simpl.
        split; [exact Hacc|]. split; [lia|]. split; [lia|].
        right. exists line. rewrite Nat.sub_diag. split; [reflexivity|].
        split; [|exact Em]. intros C. rewrite C in Eb. discriminate.
    + destruct (IH _ _ H Hacc) as [F [B [L N]]]. simpl.
      split; [exact F|]. split; [lia|]. split; [lia|].
      destruct N as [N|[l [Hl N]]]; [left; lia|].
      right. exists l. split; [|exact N].
      replace (index - i)%nat with (S (index - S i)) by lia. exact Hl.
Qed.

(** X13. Reading the header of any list of lines gives fields whose key
    is one upper-case letter and whose value is the tuple of the letter
    as written and the text after the colon; the index it ends on is
    past every field read and at most the number of lines, and unless
    the lines ran out it is the place of a line that is not blank and is
    not a field, where the music begins. *)
Theorem read_header_fields (lines : list string) :
  let fields := fst (read_header lines [] 1) in
  let index := snd (read_header lines [] 1) in
  Forall field_as_read fields /\
  (List.length fields < index <= S (List.length lines))%nat /\
  (index = S (List.length lines) \/
   exists line, nth_error lines (index - 1) = Some line /\
     strip line <> "" /\ InformationFieldMatcher (strip line) = None).
Proof.
  cbv zeta. destruct (read_header lines [] 1) as [fields index] eqn:E.
  destruct (read_header_spec lines [] 1 fields index E (Forall_nil _))
    as [F [B [L N]]].
  simpl in *. split; [exact F|]. split; [lia|]. exact N.
Qed.

(** X14. A document is returned only for a file whose first line is the
    marker, with nothing but white space around it, and its header then
    has at least three fields, X first, T second and K last, each as
    read from a line; the text of the first K field starts with C. *)
Theorem ParseAbcFile_document (text : string) (doc : AbcFile.t) :
  ParseAbcFile text = Ok doc ->
  let fields := AbcFile.fields doc in
  (exists first rest, readlines text = first :: rest /\ strip first = "%abc") /\
  (3 <= List.length fields)%nat /\
  nth 0 (keys fields) "" = "X" /\ nth 1 (keys fields) "" = "T" /\
  last (keys fields) "" = "K" /\
  Forall field_as_read fields /\
  (exists f r s,
     filter (fun g => String.eqb (InformationField.name g) "K") fields = f :: r /\
     subscript (InformationField.value f) 1 = Ok (String "C" s)).
Proof.
  unfold ParseAbcFile. intros H.
  destruct (readlines text) as [|first rest] eqn:Er; [discriminate|].
  destruct (String.eqb (strip first) "%abc") eqn:Em; [|discriminate].
  cbn [negb] in H.
  destruct (read_header rest [] 1) as [fields index] eqn:Eh.
  apply bind_ok in H. destruct H as [u [Hv H]].
  apply bind_ok in H. destruct H as [music0 [_ H]].
  unfold AbcFile.__init__ in H.
  apply bind_ok in H. destruct H as [music1 [Hp H]].
  inversion H; subst doc. cbn [AbcFile.fields]. cbv zeta.
  split; [exists first, rest; split; [reflexivity | apply String.eqb_eq; exact Em]|].
  rewrite validate_header_cases in Hv. cbv zeta in Hv.
  destruct (List.length fields <? 3)%nat eqn:E3; [discriminate|].
  destruct (String.eqb (nth 0 (keys fields) "") "X") eqn:Ex; [|discriminate].
  destruct (String.eqb (nth 1 (keys fields) "") "T") eqn:Et; [|discriminate].
  destruct (String.eqb (last (keys fields) "") "K") eqn:Ek; [|discriminate].
  apply Nat.ltb_ge in E3. apply String.eqb_eq in Ex, Et, Ek.
  split; [exact E3|]. split; [exact Ex|]. split; [exact Et|]. split; [exact Ek|].
  split.
  - apply (read_header_spec rest [] 1 fields index Eh (Forall_nil _)).
  - unfold AbcFile._propagate_key_signature in Hp.
    destruct (filter _ fields) as [|f r]; [discriminate|].
    apply bind_ok in Hp. destruct Hp as [signature [Hs Hp]].
    destruct signature as [|c s]; [discriminate|].
    destruct (Ascii.eqb c "C") eqn:Ec; [|discriminate].
    apply Ascii.eqb_eq in Ec. subst c.
    exists f, r, s. split; [reflexivity | exact Hs].
Qed.

Lemma ParseAbcFile_document_witness :
  exists doc,
    ParseAbcFile "%abc
X:1
T:Tune
M:4/4
K:C ^f
f2 g2 |
" = Ok doc /\
    (3 <= List.length (AbcFile.fields doc))%nat /\
    last (keys (AbcFile.fields doc)) "" = "K".
Proof.
  eexists. split; [reflexivity|].
  match goal with
  | |- (3 <= List.length (AbcFile.fields ?d))%nat /\ _ =>
      pose proof (ParseAbcFile_document "%abc
X:1
T:Tune
M:4/4
K:C ^f
f2 g2 |
" d eq_refl) as P
  end.
  cbv zeta in P. destruct P as [_ [L [_ [_ [K _]]]]].
  split; [exact L | exact K].
Defined.

(** ** The name of an accidental *)

(** X15. The name of an Accidental built from one of the three marks is
    flat, sharp or natural; for one built from any other text
    [__repr__] raises the AttributeError of the missing value, so its
    last branch, the empty name, is never taken. *)
Theorem accidental_repr (s : string) :
  (s = "_" -> Accidental.__repr__ (Accidental.__init__ s) = Ok "flat") /\
  (s = "^" -> Accidental.__repr__ (Accidental.__init__ s) = Ok "sharp") /\
  (s = "=" -> Accidental.__repr__ (Accidental.__init__ s) = Ok "natural") /\
  (s <> "_" -> s <> "^" -> s <> "=" ->
   Accidental.__repr__ (Accidental.__init__ s)
   = Raise (AttributeError "value")) /\
  Accidental.__repr__ (Accidental.__init__ s) <> Ok "".
Proof.
  unfold Accidental.__repr__, Accidental.get_value, Accidental.__init__.
  cbn [Accidental.value].
  split; [intros ->; reflexivity|]. split; [intros ->; reflexivity|].
  split; [intros ->; reflexivity|]. split.
  - intros H1 H2 H3. apply String.eqb_neq in H1, H2, H3.
    rewrite H1, H2, H3. reflexivity.
  - destruct (String.eqb s "_"); [discriminate|].
    destruct (String.eqb s "^"); [discriminate|].
    destruct (String.eqb s "="); discriminate.
Qed.

Lemma accidental_repr_witness :
  Accidental.__repr__ (Accidental.__init__ "_") = Ok "flat" /\
  Accidental.__repr__ (Accidental.__init__ "__")
  = Raise (AttributeError "value").
Proof.
  split.
  - apply (accidental_repr "_"). reflexivity.
  - apply (accidental_repr "__"); discriminate.
Defined.

(** ** The range of a tune *)

Lemma notes_of_notes (music0 : list MusicObject.t) :
  Forall is_note (notes_of music0).
Proof.
  unfold notes_of. induction music0 as [|o t IH]; simpl; [constructor|].
  destruct o as [d|n a d v]; simpl; [exact IH|].
  destruct (negb (String.eqb (lower n) "rest")); [|exact IH].
  constructor; [exact I | exact IH].
Qed.

Lemma lt_notes (x y : MusicObject.t) :
  is_note x -> is_note y -> Note.__lt__ x y = Ok (pitch x <? pitch y).
Proof. destruct x, y; simpl; intros Hx Hy; try contradiction; reflexivity. Qed.

Lemma gt_notes (x y : MusicObject.t) :
  is_note x -> is_note y -> Note.__gt__ x y = Ok (pitch y <? pitch x).
Proof.
  destruct x as [|n1 a1 d1 v1], y as [|n2 a2 d2 v2]; simpl;
    intros Hx Hy; try contradiction.
  unfold Note.__gt__, Note.__lt__, Note.__eq__. simpl.
  destruct (v1 <? v2) eqn:E1; simpl.
  - f_equal. symmetry. apply Z.ltb_ge. apply Z.ltb_lt in E1. lia.
  - f_equal. apply Z.ltb_ge in E1.
    destruct (v1 =? v2) eqn:E2; simpl; symmetry.
    + apply Z.eqb_eq in E2. apply Z.ltb_ge. lia.
    + apply Z.eqb_neq in E2. apply Z.ltb_lt. lia.
Qed.

Lemma best_from_lowest (best : MusicObject.t) (l : list MusicObject.t) :
  Forall is_note (best :: l) ->
  exists m, best_from Note.__lt__ best l = Ok m /\ In m (best :: l) /\
            Forall (fun n => pitch m <= pitch n) (best :: l).
Proof.
  revert best. induction l as [|x t IH]; intros best H.
  - exists best. split; [reflexivity|]. split; [left; reflexivity|].
    constructor; [lia | constructor].
  - inversion H as [|? ? Hb Hl]; subst. inversion Hl as [|? ? Hx Ht]; subst.
    cbn [best_from]. rewrite (lt_notes x best Hx Hb). cbn [bind].
    destruct (pitch x <? pitch best) eqn:E.
    + apply Z.ltb_lt in E.
      destruct (IH x (Forall_cons _ Hx Ht)) as [m [Hm [Hin Hall]]].
      exists m. split; [exact Hm|]. split; [right; exact Hin|].
      inversion Hall as [|? ? Hmx _]; subst.
      constructor; [lia | exact Hall].
    + apply Z.ltb_ge in E.
      destruct (IH best (Forall_cons _ Hb Ht)) as [m [Hm [Hin Hall]]].
      exists m. split; [exact Hm|]. split.
      * destruct Hin as [->|Hin]; [left; reflexivity | right; right; exact Hin].
      * inversion Hall as [|? ? Hmb Hrest]; subst.
        constructor; [exact Hmb|]. constructor; [lia | exact Hrest].
Qed.

Lemma best_from_highest (best : MusicObject.t) (l : list MusicObject.t) :
  Forall is_note (best :: l) ->
  exists m, best_from Note.__gt__ best l = Ok m /\ In m (best :: l) /\
            Forall (fun n => pitch n <= pitch m) (best :: l).
Proof.
  revert best. induction l as [|x t IH]; intros best H.
  - exists best. split; [reflexivity|]. split; [left; reflexivity|].
    constructor; [lia | constructor].
  - inversion H as [|? ? Hb Hl]; subst. inversion Hl as [|? ? Hx Ht]; subst.
    cbn [best_from]. rewrite (gt_notes x best Hx Hb). cbn [bind].
    destruct (pitch best <? pitch x) eqn:E.
    + apply Z.ltb_lt in E.
      destruct (IH x (Forall_cons _ Hx Ht)) as [m [Hm [Hin Hall]]].
      exists m. split; [exact Hm|]. split; [right; exact Hin|].
      inversion Hall as [|? ? Hmx _]; subst.
      constructor; [lia | exact Hall].
    + apply Z.ltb_ge in E.
      destruct (IH best (Forall_cons _ Hb Ht)) as [m [Hm [Hin Hall]]].
      exists m. split; [exact Hm|]. split.
      * destruct Hin as [->|Hin]; [left; reflexivity | right; right; exact Hin].
      * inversion Hall as [|? ? Hmb Hrest]; subst.
        constructor; [exact Hmb|]. constructor; [lia | exact Hrest].
Qed.

Lemma note_value (o : MusicObject.t) :
  is_note o -> MusicObject.value o = Ok (pitch o).
Proof. destruct o; simpl; intros H; [contradiction | reflexivity]. Qed.

(** X16. For a tune with at least one note the range is the value of a
    highest note minus the value of a lowest note plus 1: it is at
    least 1, and the value of every note, counted from the lowest, is
    from 0 to the range minus 1, a tooth of a comb with that many teeth.
    For a tune without notes the range cannot be taken: [min] raises a
    ValueError. *)
Theorem scale_range_covers (music0 : list MusicObject.t) :
  (notes_of music0 = [] -> scale_range music0 = Raise empty_sequence) /\
  (notes_of music0 <> [] ->
   exists lo hi,
     In lo (notes_of music0) /\ In hi (notes_of music0) /\
     min_note (notes_of music0) = Ok lo /\
     max_note (notes_of music0) = Ok hi /\
     scale_range music0 = Ok (pitch hi - pitch lo + 1) /\
     1 <= pitch hi - pitch lo + 1 /\
     Forall (fun n => 0 <= pitch n - pitch lo < pitch hi - pitch lo + 1)
       (notes_of music0)).
Proof.
  unfold scale_range. cbv zeta. pose proof (notes_of_notes music0) as Hn.
  destruct (notes_of music0) as [|x t] eqn:E.
  - split; [reflexivity | intros C; contradiction].
  - split; [discriminate|]. intros _.
    destruct (best_from_lowest x t Hn) as [lo [Hlo [Ilo Alo]]].
    destruct (best_from_highest x t Hn) as [hi [Hhi [Ihi Ahi]]].
    exists lo, hi. cbn [min_note max_note]. rewrite Hlo, Hhi. cbn [bind].
    assert (is_note lo) as Nlo by (apply (proj1 (Forall_forall _ _) Hn lo Ilo)).
    assert (is_note hi) as Nhi by (apply (proj1 (Forall_forall _ _) Hn hi Ihi)).
    rewrite (note_value hi Nhi), (note_value lo Nlo). cbn [bind].
    split; [exact Ilo|]. split; [exact Ihi|].
    split; [reflexivity|]. split; [reflexivity|]. split; [reflexivity|].
    pose proof (proj1 (Forall_forall _ _) Alo hi Ihi) as Hle. cbv beta in Hle.
    split; [lia|].
    apply Forall_forall. intros n Hin.
    pose proof (proj1 (Forall_forall _ _) Alo n Hin) as H1.
    pose proof (proj1 (Forall_forall _ _) Ahi n Hin) as H2.
    cbv beta in H1, H2. lia.
Qed.

Lemma scale_range_covers_witness :
  scale_range [MusicObject.Rest 2] = Raise empty_sequence /\
  exists lo hi,
    scale_range [MusicObject.Note "c" None 1 52; MusicObject.Rest 1;
                 MusicObject.Note "C," None 1 28;
                 MusicObject.Note "b'" None 1 75]
    = Ok (pitch hi - pitch lo + 1) /\ 1 <= pitch hi - pitch lo + 1.
Proof.
  split.
  - apply (scale_range_covers [MusicObject.Rest 2]). reflexivity.
  - destruct (proj2 (scale_range_covers
                [MusicObject.Note "c" None 1 52; MusicObject.Rest 1;
                 MusicObject.Note "C," None 1 28;
                 MusicObject.Note "b'" None 1 75]))
      as [lo [hi [_ [_ [_ [_ [H [L _]]]]]]]].
    + simpl. discriminate.
    + exists lo, hi. split; [exact H | exact L].
Defined.

(** ** Rests around the tune *)

(** X17. The rests before the first note are dropped and the tune from
    its first note on is kept whole; a tune of rests only, the empty one
    included, makes the loop read past the end: IndexError. *)
Theorem leading_rests_dropped (rests : list MusicObject.t) :
  Forall is_rest rests ->
  drop_leading_rests rests = Raise IndexError /\
  (forall n a d v t,
     drop_leading_rests (rests ++ MusicObject.Note n a d v :: t)
     = Ok (MusicObject.Note n a d v :: t)).
Proof.
  intros H. induction H as [|o r Ho _ IH]; [split; reflexivity|].
  destruct o as [d0|]; [|contradiction]. exact IH.
Qed.

Lemma leading_rests_dropped_witness :
  drop_leading_rests
    [MusicObject.Rest 2; MusicObject.Rest 1; MusicObject.Note "C" None 1 40;
     MusicObject.Rest 1]
  = Ok [MusicObject.Note "C" None 1 40; MusicObject.Rest 1].
Proof.
  apply (leading_rests_dropped [MusicObject.Rest 2; MusicObject.Rest 1]).
  repeat constructor.
Defined.

Lemma rev_two {A : Type} (l : list A) (x y : A) :
  rev (l ++ [x; y]) = y :: x :: rev l.
Proof. rewrite rev_app_distr. reflexivity. Qed.

(** X18. A tune that ends on a note is left as it is. For a tune that
    ends on a rest, each round of the loop takes two events off the end,
    the rest and the event before it whatever it is, and the loop goes
    on from there; so of a tune ending in two notes and a rest only the
    first of the two notes is left. When the rest is the only event, or
    the rounds use the tune up, the loop reads past the end:
    IndexError. *)
Theorem trailing_rests_dropped (music0 : list MusicObject.t) :
  (forall n a d v,
     drop_trailing_rests (music0 ++ [MusicObject.Note n a d v])
     = Ok (music0 ++ [MusicObject.Note n a d v])) /\
  (forall o d,
     drop_trailing_rests (music0 ++ [o; MusicObject.Rest d])
     = drop_trailing_rests music0) /\
  (forall n a d v o d',
     drop_trailing_rests
       (music0 ++ [MusicObject.Note n a d v; o; MusicObject.Rest d'])
     = Ok (music0 ++ [MusicObject.Note n a d v])) /\
  (forall d, drop_trailing_rests [MusicObject.Rest d] = Raise IndexError) /\
  drop_trailing_rests [] = Raise IndexError.
Proof.
  assert (forall l n a d v,
            drop_trailing_rests (l ++ [MusicObject.Note n a d v])
            = Ok (l ++ [MusicObject.Note n a d v])) as Hnote.
  { intros l n a d v. unfold drop_trailing_rests.
    rewrite rev_app_distr. cbn [rev app drop_trailing_rests_rev].
    rewrite rev_involutive. reflexivity. }
  assert (forall l o d,
            drop_trailing_rests (l ++ [o; MusicObject.Rest d])
            = drop_trailing_rests l) as Hrest.
  { intros l o d. unfold drop_trailing_rests. rewrite rev_two. reflexivity. }
  split; [apply Hnote|]. split; [apply Hrest|]. split.
  - intros n a d v o d'.
    replace (music0 ++ [MusicObject.Note n a d v; o; MusicObject.Rest d'])
      with ((music0 ++ [MusicObject.Note n a d v]) ++ [o; MusicObject.Rest d'])
      by (rewrite <- app_assoc; reflexivity).
    rewrite Hrest. apply Hnote.
  - split; reflexivity.
Qed.

Lemma drop_trailing_rev_spec (k : nat) (r m : list MusicObject.t) :
  (List.length r <= k)%nat ->
  drop_trailing_rests_rev r = Ok m ->
  exists dropped n a d v rest,
    r = dropped ++ MusicObject.Note n a d v :: rest /\
    m = rev rest ++ [MusicObject.Note n a d v].
Proof.
  revert r. induction k as [|k IH]; intros r Hlen H.
  - destruct r; [discriminate | simpl in Hlen; lia].
  - destruct r as [|o r']; [discriminate|].
    destruct o as [d0|n a d v].
    + destruct r' as [|o' r'']; [discriminate|].
      cbn [drop_trailing_rests_rev] in H. simpl in Hlen.
      destruct (IH r'' ltac:(lia) H) as [dropped [n [a [d [v [rest [E1 E2]]]]]]].
      exists (MusicObject.Rest d0 :: o' :: dropped), n, a, d, v, rest.
      split; [rewrite E1; reflexivity | exact E2].
    + cbn [drop_trailing_rests_rev] in H. inversion H; subst.
      exists [], n, a, d, v, r'. split; reflexivity.
Qed.

Lemma drop_trailing_spec (music0 m : list MusicObject.t) :
  drop_trailing_rests music0 = Ok m ->
  exists front n a d v dropped,
    m = front ++ [MusicObject.Note n a d v] /\ music0 = m ++ dropped.
Proof.
  unfold drop_trailing_rests. intros H.
  destruct (drop_trailing_rev_spec _ _ _ (Nat.le_refl _) H)
    as [dropped [n [a [d [v [rest [E1 E2]]]]]]].
  exists (rev rest), n, a, d, v, (rev dropped).
  split; [exact E2|].
  apply (f_equal (@rev _)) in E1. rewrite rev_involutive in E1.
  rewrite E1, rev_app_distr. cbn [rev]. rewrite E2. reflexivity.
Qed.

Lemma drop_leading_spec (music0 m : list MusicObject.t) :
  drop_leading_rests music0 = Ok m ->
  exists dropped n a d v t,
    m = MusicObject.Note n a d v :: t /\ music0 = dropped ++ m.
Proof.
  induction music0 as [|o r IH]; [discriminate|].
  destruct o as [d0|n a d v]; cbn [drop_leading_rests]; intros H.
  - destruct (IH H) as [dropped [n [a [d [v [t [E1 E2]]]]]]].
    exists (MusicObject.Rest d0 :: dropped), n, a, d, v, t.
    split; [exact E1 | rewrite E2; reflexivity].
  - inversion H; subst. exists [], n, a, d, v, r. split; reflexivity.
Qed.

(** X19. When the three steps of the script go through, the tune that is
    measured and drawn begins with a note and ends with a note, its last
    note lasts at most one beat, and it is a stretch of the tune that
    was read, no longer than it. *)
Theorem prepared_tune (music0 m : list MusicObject.t) :
  prepare music0 = Ok m ->
  (exists n a d v t, m = MusicObject.Note n a d v :: t) /\
  (exists front n a d v, m = front ++ [MusicObject.Note n a d v] /\ d <= 1) /\
  (exists before after m',
     music0 = before ++ m' ++ after /\
     map MusicObject.name m = map MusicObject.name m') /\
  (List.length m <= List.length music0)%nat.
Proof.
  unfold prepare. intros H.
  apply bind_ok in H. destruct H as [m1 [H1 H]].
  apply bind_ok in H. destruct H as [m2 [H2 H]].
  destruct (drop_leading_spec _ _ H1) as [before [n1 [a1 [d1 [v1 [t1 [E1 E1']]]]]]].
  destruct (drop_trailing_spec _ _ H2) as [front [n [a [d [v [after [E2 E2']]]]]]].
  assert (exists d', m = front ++ [MusicObject.Note n a d' v] /\ d' <= 1) as [d' [Em Hd]].
  { unfold shorten_last in H. rewrite E2, unsnoc_snoc in H.
    cbn [MusicObject.duration MusicObject.set_duration] in H.
    destruct (d >? 1) eqn:E; inversion H; subst.
    - exists 1. split; [reflexivity | lia].
    - exists d. split; [reflexivity|].
      pose proof (Zgt_cases d 1) as C. rewrite E in C. exact C. }
  split; [|split; [|split]].
  - destruct front as [|x front'].
    + exists n, a, d', v, []. exact Em.
    + subst m1. rewrite E2 in E2'. simpl in E2'. inversion E2'; subst x.
      exists n1, a1, d1, v1, (front' ++ [MusicObject.Note n a d' v]).
      exact Em.
  - exists front, n, a, d', v. split; [exact Em | exact Hd].
  - exists before, after, m2. split.
    + rewrite E1', E2'. reflexivity.
    + rewrite Em, E2, !map_app. reflexivity.
  - rewrite E1', E2', Em, E2, !length_app. simpl. lia.
Qed.

Lemma prepared_tune_witness :
  (exists n a d v t,
     [MusicObject.Note "C" None 2 40; MusicObject.Note "D" None 1 42]
     = MusicObject.Note n a d v :: t) /\
  (List.length [MusicObject.Note "C" None 2 40; MusicObject.Note "D" None 1 42]
   <= List.length [MusicObject.Rest 1; MusicObject.Note "C" None 2 40;
                   MusicObject.Note "D" None 3 42])%nat.
Proof.
  destruct (prepared_tune
              [MusicObject.Rest 1; MusicObject.Note "C" None 2 40;
               MusicObject.Note "D" None 3 42]
              [MusicObject.Note "C" None 2 40; MusicObject.Note "D" None 1 42]
              eq_refl) as [H1 [_ [_ H4]]].
  split; [exact H1 | exact H4].
Defined.

(** ** The values a tune can have *)

Lemma table_value_range (n : ascii) (b : Z) :
  table_value n pitch_table = Some b -> 40 <= b <= 63.
Proof.
  unfold pitch_table. cbn [table_value]. intros H.
  repeat match type of H with
         | (if ?c then _ else _) = _ =>
             destruct c; [inversion H; lia|]
         end.
  discriminate.
Qed.

Lemma octave_count (octave : string) :
  at_most_one is_octave_mark octave ->
  0 <= count_char "," octave /\ 0 <= count_char "'" octave /\
  count_char "," octave + count_char "'" octave <= 1.
Proof.
  intros [->|[c [_ ->]]]; [simpl; lia|].
  cbn [count_char].
  destruct (Ascii.eqb c ",") eqn:E1.
  - apply Ascii.eqb_eq in E1. subst c.
    replace (Ascii.eqb "," "'") with false by reflexivity. lia.
  - destruct (Ascii.eqb c "'"); lia.
Qed.

Lemma semitone_delta_range (mark : option string) :
  -1 <= semitone_delta mark <= 1.
Proof.
  unfold semitone_delta. destruct mark as [m|]; [|lia].
  destruct (String.eqb m "_"); [lia|]. destruct (String.eqb m "^"); lia.
Qed.

Lemma computed_value_range (l : ascii) (octave : string)
  (mark : option string) (v : Z) :
  at_most_one is_octave_mark octave ->
  Note.compute_value (String l octave) (option_map Accidental.__init__ mark)
  = Ok v ->
  27 <= v <= 76.
Proof.
  intros Ho H.
  destruct (compute_value_inv _ _ _ H) as [n [tail [b [E [_ [_ [Ht Hv]]]]]]].
  inversion E; subst n tail.
  pose proof (table_value_range l b Ht).
  pose proof (octave_count octave Ho).
  pose proof (semitone_delta_range mark).
  subst v. unfold pitch_value. lia.
Qed.

Lemma make_object_in_range (m : Match.t) (o : MusicObject.t) :
  well_formed m -> make_object m = Ok o -> note_in_range o.
Proof.
  intros [_ [_ [[l [oct [Hn [_ Wo]]]] _]]] H.
  unfold make_object in H. rewrite make_object_accidental, Hn in H.
  destruct (str_in (lower (String l oct)) ["z"; "x"]).
  - unfold Rest.__init__ in H. apply bind_ok in H.
    destruct H as [d [_ H]]. inversion H. exact I.
  - unfold Note.__init__ in H. apply bind_ok in H. destruct H as [d [_ H]].
    unfold Note._update_value in H. apply bind_ok in H.
    destruct H as [v [Hv H]]. inversion H; subst o. simpl.
    split; [exists l, oct; split; [reflexivity | exact Wo]|].
    apply (computed_value_range l oct _ v Wo Hv).
Qed.

Lemma set_duration_in_range (d : Z) (o : MusicObject.t) :
  note_in_range o -> note_in_range (MusicObject.set_duration d o).
Proof. destruct o; simpl; auto. Qed.

Lemma step_in_range (st st' : scan) (m : Match.t) :
  well_formed m -> Forall note_in_range (music st) -> step st m = Ok st' ->
  Forall note_in_range (music st').
Proof.
  intros Wm Hall H. unfold step in H.
  apply bind_ok in H. destruct H as [o [Ho H]].
  apply bind_ok in H. destruct H as [music2 [H2 H]].
  assert (Forall note_in_range (music st ++ [o])) as H1.
  { apply Forall_app. split; [exact Hall|].
    constructor; [apply (make_object_in_range m o Wm Ho) | constructor]. }
  assert (Forall note_in_range music2) as H2'.
  { destruct (detect_tie st); [|inversion H2; subst; exact H1].
    unfold tie_fold in H2.
    destruct (unsnoc (music st ++ [o])) as [[front last]|] eqn:E1; [|discriminate].
    destruct (unsnoc front) as [[front' prev]|] eqn:E2; [|discriminate].
    destruct (String.eqb (MusicObject.name prev) (MusicObject.name last));
      inversion H2; subst; [|exact H1].
    apply unsnoc_length in E1, E2. rewrite E1, E2 in H1.
    apply Forall_app in H1. destruct H1 as [Hf _].
    apply Forall_app in Hf. destruct Hf as [Hf Hp].
    apply Forall_app. split; [exact Hf|].
    inversion Hp; subst.
    constructor; [apply set_duration_in_range; assumption | constructor]. }
  destruct (detect_chord st).
  - apply bind_ok in H. destruct H as [music3 [H3 H]].
    inversion H; subst; cbn [music].
    apply chord_fold_shape in H3. destruct H3 as [front [last [E1 E2]]].
    subst. apply Forall_app in H2'. destruct H2' as [Hf Hl].
    apply Forall_app. split; [exact Hf|]. inversion Hl; subst.
    constructor; [apply set_duration_in_range; assumption | constructor].
  - inversion H; subst; cbn [music]. exact H2'.
Qed.

Lemma scan_in_range (ms : list Match.t) (st st' : scan) :
  Forall well_formed ms -> Forall note_in_range (music st) ->
  foldM step ms st = Ok st' -> Forall note_in_range (music st').
Proof.
  revert st. induction ms as [|m ms IH]; intros st Hms Hall H.
  - inversion H; subst. exact Hall.
  - cbn [foldM] in H. apply bind_ok in H. destruct H as [st1 [H1 H]].
    inversion Hms; subst.
    apply (IH st1); [assumption | | exact H].
    apply (step_in_range st st1 m); assumption.
Qed.

Lemma mark_note_in_range (mark note : string) (n n' : MusicObject.t) :
  note_in_range n -> AbcFile.mark_note mark note n = Ok n' -> note_in_range n'.
Proof.
  intros Hn. unfold AbcFile.mark_note.
  destruct (String.eqb (lower (MusicObject.name n)) note);
    [|intros H; inversion H; subst; exact Hn].
  destruct n as [d|nm [a|] d v]; simpl; intros H.
  - discriminate.
  - inversion H; subst. exact Hn.
  - unfold Note._update_value in H.
    apply bind_ok in H. destruct H as [v' [Hv H]]. inversion H; subst n'.
    destruct Hn as [[l [oct [E Wo]]] _]. subst nm. simpl.
    split; [exists l, oct; split; [reflexivity | exact Wo]|].
    apply (computed_value_range l oct (Some mark) v' Wo Hv).
Qed.

Lemma mapM_forall {A : Type} (f : A -> result A) (P : A -> Prop)
  (l l' : list A) :
  (forall x y, P x -> f x = Ok y -> P y) ->
  Forall P l -> mapM f l = Ok l' -> Forall P l'.
Proof.
  intros HP Hl. revert l'. induction Hl as [|x t Hx _ IH]; intros l' H.
  - inversion H. constructor.
  - simpl in H. apply bind_ok in H. destruct H as [y [Hy H]].
    apply bind_ok in H. destruct H as [ys [Hys H]].
    inversion H; subst. constructor; [apply (HP x y Hx Hy) | apply IH; exact Hys].
Qed.

Lemma propagate_in_range (fields : list InformationField.t)
  (music0 music' : list MusicObject.t) :
  Forall note_in_range music0 ->
  AbcFile._propagate_key_signature fields music0 = Ok music' ->
  Forall note_in_range music'.
Proof.
  intros Hall H. unfold AbcFile._propagate_key_signature in H.
  destruct (filter _ fields) as [|f r]; [discriminate|].
  apply bind_ok in H. destruct H as [signature [_ H]].
  destruct signature as [|c s]; [discriminate|].
  destruct (negb (Ascii.eqb c "C")); [discriminate|].
  revert music0 Hall H.
  induction (tl (split " " (String c s))) as [|a tokens IH];
    intros music0 Hall H.
  - inversion H; subst. exact Hall.
  - cbn [foldM] in H. apply bind_ok in H. destruct H as [music1 [H1 H]].
    apply (IH music1); [|exact H].
    unfold AbcFile.apply_token in H1.
    destruct (negb (len a =? 2)); [inversion H1; subst; exact Hall|].
    apply bind_ok in H1. destruct H1 as [mark [_ H1]].
    apply bind_ok in H1. destruct H1 as [letter [_ H1]].
    apply (mapM_forall _ note_in_range music0 music1
             (fun x y => mark_note_in_range mark (lower letter) x y) Hall H1).
Qed.

Lemma notes_of_in (music0 : list MusicObject.t) (o : MusicObject.t) :
  In o (notes_of music0) -> In o music0.
Proof. unfold notes_of. intros H. apply filter_In in H. apply H. Qed.

Lemma scale_range_value (music0 : list MusicObject.t) (r : Z) :
  scale_range music0 = Ok r ->
  exists lo hi,
    In lo music0 /\ In hi music0 /\ is_note lo /\ is_note hi /\
    pitch lo <= pitch hi /\ r = pitch hi - pitch lo + 1.
Proof.
  unfold scale_range. cbv zeta. pose proof (notes_of_notes music0) as Hn.
  pose proof (notes_of_in music0) as Hin.
  destruct (notes_of music0) as [|x t] eqn:E; [discriminate|].
  destruct (best_from_lowest x t Hn) as [lo [Hlo [Ilo Alo]]].
  destruct (best_from_highest x t Hn) as [hi [Hhi [Ihi Ahi]]].
  cbn [min_note max_note]. rewrite Hlo, Hhi. cbn [bind].
  assert (is_note lo) as Nlo by (apply (proj1 (Forall_forall _ _) Hn lo Ilo)).
  assert (is_note hi) as Nhi by (apply (proj1 (Forall_forall _ _) Hn hi Ihi)).
  rewrite (note_value hi Nhi), (note_value lo Nlo). cbn [bind].
  intros H. inversion H; subst r.
  exists lo, hi. split; [apply Hin; exact Ilo|]. split; [apply Hin; exact Ihi|].
  split; [exact Nlo|]. split; [exact Nhi|]. split; [|reflexivity].
  apply (proj1 (Forall_forall _ _) Alo hi Ihi).
Qed.

(** X20. In a document read from a file every note is named by a letter
    with at most one octave mark and has a value from 27 to 76, with the
    accidentals of the key applied; so the range of the tune, when it
    has a note, is from 1 to 50. *)
Theorem document_values_bounded (text : string) (doc : AbcFile.t) :
  ParseAbcFile text = Ok doc ->
  Forall note_in_range (AbcFile.music doc) /\
  (forall r, scale_range (AbcFile.music doc) = Ok r -> 1 <= r <= 50).
Proof.
  unfold ParseAbcFile. intros H.
  destruct (readlines text) as [|first rest]; [discriminate|].
  destruct (negb (String.eqb (strip first) "%abc")); [discriminate|].
  destruct (read_header rest [] 1) as [fields index].
  apply bind_ok in H. destruct H as [u [_ H]].
  apply bind_ok in H. destruct H as [music0 [Hm H]].
  unfold AbcFile.__init__ in H.
  apply bind_ok in H. destruct H as [music1 [Hp H]].
  inversion H; subst doc. cbn [AbcFile.music].
  assert (Forall note_in_range music1) as Hall.
  { apply (propagate_in_range fields music0 music1); [|exact Hp].
    unfold parse_music, scan_matches in Hm.
    apply bind_ok in Hm. destruct Hm as [st [Hs E]]. inversion E; subst.
    apply (scan_in_range _ (mk_scan [] false false) st
             (finditer_from_all well_formed _ 0
                (fun t m H => proj1 (match_at_spec t m H)))
             (Forall_nil _) Hs). }
  split; [exact Hall|]. intros r Hr.
  destruct (scale_range_value music1 r Hr)
    as [lo [hi [Ilo [Ihi [Nlo [Nhi [Hle ->]]]]]]].
  pose proof (proj1 (Forall_forall _ _) Hall lo Ilo) as Rlo.
  pose proof (proj1 (Forall_forall _ _) Hall hi Ihi) as Rhi.
  destruct lo as [|? ? ? vlo]; [contradiction|].
  destruct hi as [|? ? ? vhi]; [contradiction|].
  simpl in *. destruct Rlo as [_ Rlo]. destruct Rhi as [_ Rhi]. lia.
Qed.

Lemma document_values_bounded_witness :
  exists doc,
    ParseAbcFile "%abc
X:1
T:Tune
K:C _c ^b
C, z b'2
" = Ok doc /\
    Forall note_in_range (AbcFile.music doc).
Proof.
  eexists. split; [reflexivity|].
  match goal with
  | |- Forall note_in_range (AbcFile.music ?d) =>
      apply (document_values_bounded "%abc
X:1
T:Tune
K:C _c ^b
C, z b'2
" d eq_refl)
  end.
Defined.

(** ** The rounds of the loop, tie and chord together *)

Lemma step_flags (st st' : scan) (m : Match.t) :
  step st m = Ok st' ->
  detect_tie st' = negb (String.eqb (Match.tie m) "") /\
  detect_chord st' = chord_after (detect_chord st) m.
Proof.
  unfold step, chord_after. intros H.
  apply bind_ok in H. destruct H as [o [_ H]].
  apply bind_ok in H. destruct H as [music2 [_ H]].
  destruct (detect_chord st).
  - apply bind_ok in H. destruct H as [music3 [_ H]].
    inversion H; subst. split; reflexivity.
  - inversion H; subst. split; reflexivity.
Qed.

Lemma scan_chord_state (ms : list Match.t) (st st' : scan) :
  foldM step ms st = Ok st' ->
  detect_chord st' = fold_left chord_after ms (detect_chord st).
Proof.
  revert st. induction ms as [|m ms IH]; intros st H.
  - inversion H; subst. reflexivity.
  - cbn [foldM] in H. apply bind_ok in H. destruct H as [st1 [H1 H]].
    rewrite (IH st1 H). cbn [fold_left].
    rewrite (proj2 (step_flags st st1 m H1)). reflexivity.
Qed.

(** A round of the loop, when the list ends in the event [a]. *)
Lemma step_round (front : list MusicObject.t) (a b : MusicObject.t)
  (tie chord : bool) (m : Match.t) :
  make_object m = Ok b ->
  step (mk_scan (front ++ [a]) tie chord) m =
  Ok (mk_scan
        (if tie && String.eqb (MusicObject.name a) (MusicObject.name b)
         then front ++ [zero_if chord
                          (MusicObject.set_duration
                             (MusicObject.duration a + MusicObject.duration b) a)]
         else front ++ [a; zero_if chord b])
        (negb (String.eqb (Match.tie m) ""))
        (chord_after chord m)).
Proof.
  intros Hm. unfold step, chord_after, zero_if. rewrite Hm.
  cbn [bind music detect_tie detect_chord].
  replace ((front ++ [a]) ++ [b]) with (front ++ [a; b])
    by (rewrite <- app_assoc; reflexivity).
  assert (chord_fold (front ++ [a; b])
          = Ok (front ++ [a; MusicObject.set_duration 0 b])) as Hc.
  { unfold chord_fold.
    replace (front ++ [a; b]) with ((front ++ [a]) ++ [b])
      by (rewrite <- app_assoc; reflexivity).
    rewrite unsnoc_snoc, <- app_assoc. reflexivity. }
  destruct tie; cbn [andb].
  - rewrite tie_fold_pair.
    destruct (String.eqb (MusicObject.name a) (MusicObject.name b));
      cbn [bind]; destruct chord; try reflexivity.
    + unfold chord_fold. rewrite unsnoc_snoc. reflexivity.
    + rewrite Hc. reflexivity.
  - cbn [bind]. destruct chord; [rewrite Hc|]; reflexivity.
Qed.

Lemma step_nonempty (st st' : scan) (m : Match.t) :
  step st m = Ok st' -> music st' <> [].
Proof.
  unfold step. intros H.
  apply bind_ok in H. destruct H as [o [_ H]].
  apply bind_ok in H. destruct H as [music2 [H2 H]].
  assert (music2 <> []) as N2.
  { destruct (detect_tie st).
    - unfold tie_fold in H2.
      destruct (unsnoc (music st ++ [o])) as [[front last]|]; [|discriminate].
      destruct (unsnoc front) as [[front' prev]|]; [|discriminate].
      destruct (String.eqb (MusicObject.name prev) (MusicObject.name last));
        inversion H2; subst; intros C; apply app_eq_nil in C;
        destruct C; discriminate.
    - inversion H2; subst. intros C. apply app_eq_nil in C.
      destruct C. discriminate. }
  destruct (detect_chord st).
  - apply bind_ok in H. destruct H as [music3 [H3 H]].
    inversion H; subst; cbn [music].
    apply chord_fold_shape in H3. destruct H3 as [front [last [_ E]]].
    subst. intros C. apply app_eq_nil in C. destruct C. discriminate.
  - inversion H; subst. exact N2.
Qed.

(** The same round with a chord open and with none: the chord only sets
    the duration of the last event to 0. *)
Lemma step_chord_effect (music0 : list MusicObject.t) (tie : bool)
  (m : Match.t) (st0 : scan) :
  step (mk_scan music0 tie false) m = Ok st0 ->
  exists front last,
    music st0 = front ++ [last] /\
    step (mk_scan music0 tie true) m
    = Ok (mk_scan (front ++ [MusicObject.set_duration 0 last])
            (detect_tie st0) (String.eqb (Match.chord_end m) "")).
Proof.
  intros H. pose proof (step_nonempty _ _ _ H) as N.
  destruct (exists_last N) as [front [last E]]. exists front, last.
  split; [exact E|].
  unfold step in H |- *. cbn [music detect_tie detect_chord] in H |- *.
  destruct (make_object m) as [o|e]; [|discriminate]. cbn [bind] in H |- *.
  destruct (if tie then tie_fold (music0 ++ [o]) else Ok (music0 ++ [o]))
    as [music2|e]; [|discriminate].
  cbn [bind] in H |- *. inversion H; subst st0. cbn [music detect_tie] in E |- *.
  subst music2. unfold chord_fold. rewrite unsnoc_snoc. reflexivity.
Qed.

Lemma step_tie_free (st st' : scan) (m : Match.t) :
  detect_tie st = false -> step st m = Ok st' ->
  exists o,
    make_object m = Ok o /\
    music st' = music st ++ [zero_if (detect_chord st) o].
Proof.
  intros Ht H. unfold step in H. rewrite Ht in H.
  destruct (make_object m) as [o|e]; [|discriminate]. cbn [bind] in H.
  exists o. split; [reflexivity|]. unfold zero_if.
  destruct (detect_chord st).
  - unfold chord_fold in H. rewrite unsnoc_snoc in H. cbn [bind] in H.
    inversion H. reflexivity.
  - inversion H. reflexivity.
Qed.

Lemma zero_if_duration (open : bool) (o : MusicObject.t) :
  MusicObject.duration (zero_if open o)
  = if open then 0 else MusicObject.duration o.
Proof. destruct open; simpl; [apply set_duration_duration | reflexivity]. Qed.

Lemma scan_tie_free (ms : list Match.t) (st st' : scan) :
  Forall (fun m => Match.tie m = "") ms ->
  detect_tie st = false -> foldM step ms st = Ok st' ->
  map MusicObject.duration (music st')
  = map MusicObject.duration (music st) ++ chord_durations (detect_chord st) ms.
Proof.
  revert st. induction ms as [|m ms IH]; intros st Hms Ht H.
  - inversion H; subst. simpl. rewrite app_nil_r. reflexivity.
  - cbn [foldM] in H. apply bind_ok in H. destruct H as [st1 [H1 H]].
    inversion Hms as [|? ? Hm Hms']; subst.
    destruct (step_flags st st1 m H1) as [T C].
    rewrite Hm in T. cbn in T.
    destruct (step_tie_free st st1 m Ht H1) as [o [Ho E]].
    rewrite (IH st1 Hms' T H), E, C, map_app. cbn [map chord_durations].
    rewrite zero_if_duration, (make_object_beats m o Ho), <- app_assoc.
    reflexivity.
Qed.

Lemma chord_durations_app (a b : list Match.t) (open : bool) :
  chord_durations open (a ++ b)
  = chord_durations open a ++ chord_durations (fold_left chord_after a open) b.
Proof.
  revert open. induction a as [|m a IH]; intros open; [reflexivity|].
  cbn [app chord_durations fold_left]. rewrite IH. reflexivity.
Qed.

Lemma chord_durations_members (middle : list Match.t) :
  Forall (fun m => Match.chord_end m = "") middle ->
  chord_durations true middle = repeat 0 (List.length middle) /\
  fold_left chord_after middle true = true.
Proof.
  intros H. induction H as [|m r Hm _ [I1 I2]]; [split; reflexivity|].
  cbn [chord_durations fold_left List.length repeat]. unfold chord_after at 1 3.
  rewrite Hm. cbn. rewrite I1, I2. split; reflexivity.
Qed.

(** ** Chords: when one is open, and what it zeroes *)

(** C2, as the design document states it, fails twice. The pattern looks
    for the duration digit before the closing bracket, so in [[C E G]2]
    the 2 belongs to no match and the first note keeps the default
    duration. And chord folding does not only zero non-leading members:
    in [[C2-C2 E]] the second C is read while the chord is open, the tie
    merges it into the first, the leading member, and the chord then
    sets the duration of that merged event to 0. *)
Lemma chord_claim_fails :
  (~ exists o1 o2 o3,
       parse_music "[C E G]2" = Ok [o1; o2; o3] /\
       MusicObject.duration o1 = 2 /\
       MusicObject.duration o2 = 0 /\
       MusicObject.duration o3 = 0) /\
  read_in_chord false (finditer (strip_decorators "[C2-C2 E]"))
  = [false; true; true] /\
  parse_music "[C2-C2 E]"
  = Ok [MusicObject.Note "C" None 0 40; MusicObject.Note "E" None 0 44].
Proof.
  split; [|split; reflexivity].
  intros [o1 [o2 [o3 [H [D _]]]]].
  vm_compute in H. inversion H; subst. discriminate D.
Qed.

(** C2, amended. The text [[C E G]2] is read as three notes of durations
    1, 0, 0, the digit after the bracket being skipped; with the digit on
    the first note, [[C2 E G]], the durations are 2, 0, 0. Chord folding
    never changes the length of the list: a round of the loop with a
    chord open gives the list the same round gives with none open, but
    for the duration of the last event, set to 0. A chord is open after
    a token with an opening bracket read while none is open, and until
    after a later token with a closing bracket. In a body without ties
    every token gives one event, of duration 0 when the token is read
    while a chord is open and of the written duration otherwise; so of a
    chord the opening member keeps its duration, the members up to and
    including the closing one have duration 0, and the token after the
    closing one starts afresh. *)
Theorem chord_folding :
  parse_music "[C E G]2"
  = Ok [MusicObject.Note "C" None 1 40; MusicObject.Note "E" None 0 44;
        MusicObject.Note "G" None 0 47] /\
  parse_music "[C2 E G]"
  = Ok [MusicObject.Note "C" None 2 40; MusicObject.Note "E" None 0 44;
        MusicObject.Note "G" None 0 47] /\
  (forall music0 tie m st0,
     step (mk_scan music0 tie false) m = Ok st0 ->
     exists front last,
       music st0 = front ++ [last] /\
       step (mk_scan music0 tie true) m
       = Ok (mk_scan (front ++ [MusicObject.set_duration 0 last])
               (detect_tie st0) (String.eqb (Match.chord_end m) ""))) /\
  (forall ms st,
     scan_matches ms = Ok st -> detect_chord st = chord_open ms) /\
  (forall ms st,
     Forall (fun m => Match.tie m = "") ms ->
     scan_matches ms = Ok st ->
     List.length (music st) = List.length ms /\
     map MusicObject.duration (music st) = chord_durations false ms) /\
  (forall pre opener middle closer post st,
     Forall (fun m => Match.tie m = "")
       (pre ++ opener :: middle ++ closer :: post) ->
     chord_open pre = false ->
     Match.chord_start opener <> "" ->
     Forall (fun m => Match.chord_end m = "") middle ->
     Match.chord_end closer <> "" ->
     scan_matches (pre ++ opener :: middle ++ closer :: post) = Ok st ->
     map MusicObject.duration (music st)
     = chord_durations false pre
       ++ beats opener :: repeat 0 (List.length middle)
       ++ 0 :: chord_durations false post).
Proof.
  split; [reflexivity|]. split; [reflexivity|].
  split; [exact step_chord_effect|].
  split; [intros ms st H; apply (scan_chord_state ms _ st H)|].
  assert (forall ms st,
            Forall (fun m => Match.tie m = "") ms ->
            scan_matches ms = Ok st ->
            map MusicObject.duration (music st) = chord_durations false ms)
    as Hfree.
  { intros ms st Hms H.
    apply (scan_tie_free ms (mk_scan [] false false) st Hms eq_refl H). }
  split.
  - intros ms st Hms H. split; [|apply Hfree; assumption].
    rewrite (scan_without_ties ms (mk_scan [] false false) st Hms eq_refl H).
    reflexivity.
  - intros pre opener middle closer post st Hms Hpre Hop Hmid Hcl H.
    rewrite (Hfree _ st Hms H), chord_durations_app.
    unfold chord_open in Hpre. rewrite Hpre.
    cbn [chord_durations]. unfold chord_after at 1.
    apply String.eqb_neq in Hop. rewrite Hop. cbn [negb].
    rewrite chord_durations_app.
    destruct (chord_durations_members middle Hmid) as [-> ->].
    cbn [chord_durations]. unfold chord_after at 1.
    apply String.eqb_neq in Hcl. rewrite Hcl. reflexivity.
Qed.

Lemma chord_folding_witness :
  exists st,
    scan_matches (finditer "z3 [D2 E F] G4") = Ok st /\
    map MusicObject.duration (music st) = [3; 2; 0; 0; 4].
Proof.
  eexists. split; [reflexivity|].
  apply (proj2 (proj2 (proj2 (proj2 (proj2 chord_folding))))
           [Match.mk "" "" "z" "3" "" ""]
           (Match.mk "[" "" "D" "2" "" "")
           [Match.mk "" "" "E" "" "" ""]
           (Match.mk "" "" "F" "" "]" "")
           [Match.mk "" "" "G" "4" "" ""]).
  - repeat constructor.
  - reflexivity.
  - discriminate.
  - repeat constructor.
  - discriminate.
  - reflexivity.
Defined.

(** ** Ties: from the marker to the merge *)

(** C3, as the design document states it, fails when a chord is open as
    the later event is read. In [[C2-C2 E]] the two C are merged, but
    the merged event is left with duration 0, not 4; in [[C2-D2 E]] the
    names differ and both events remain, but the D does not keep its
    duration 2. *)
Lemma tie_claim_fails :
  (~ exists o rest,
       parse_music "[C2-C2 E]" = Ok (o :: rest) /\
       MusicObject.duration o = 2 + 2) /\
  (~ exists c d rest,
       parse_music "[C2-D2 E]" = Ok (c :: d :: rest) /\
       MusicObject.duration d = 2).
Proof.
  split.
  - intros [o [rest [H D]]]. vm_compute in H. inversion H; subst.
    discriminate D.
  - intros [c [d [rest [H D]]]]. vm_compute in H. inversion H; subst.
    discriminate D.
Qed.

(** C3, amended. Take any round of the loop that ends well, for a token
    [m1], and a next token [m2] that makes an event [b]. The list then
    ends in an event [a], the one of [m1] or the one it was merged into,
    and the next round raises nothing. If [m1] has a tie marker and the
    names of [a] and [b] are equal, [b] leaves the list and [a] gets the
    sum of the two durations; if the names differ, or [m1] has no tie
    marker, both remain as they are. That is with no chord open after
    [m1]; with one open, the chord then sets the duration of the last
    event to 0: of the merged event, or of [b]. So C2 tied to C2 is read
    as one C of duration 4, C tied to C as one C of duration 2, C2 tied
    to D2 as a C and a D of duration 2 each, a rest of 3 tied to a rest
    as one rest of 4, and in a chord the merged C is left with 0. *)
Theorem tie_folding :
  (forall st m1 st1 m2 b,
     step st m1 = Ok st1 -> make_object m2 = Ok b ->
     exists front a st2,
       music st1 = front ++ [a] /\
       step st1 m2 = Ok st2 /\
       detect_chord st1 = chord_after (detect_chord st) m1 /\
       (Match.tie m1 <> "" ->
        MusicObject.name a = MusicObject.name b ->
        music st2 =
        front ++ [zero_if (detect_chord st1)
                    (MusicObject.set_duration
                       (MusicObject.duration a + MusicObject.duration b) a)]) /\
       (Match.tie m1 <> "" ->
        MusicObject.name a <> MusicObject.name b ->
        music st2 = front ++ [a; zero_if (detect_chord st1) b]) /\
       (Match.tie m1 = "" ->
        music st2 = front ++ [a; zero_if (detect_chord st1) b])) /\
  parse_music "C2-C2" = Ok [MusicObject.Note "C" None 4 40] /\
  parse_music "C-C" = Ok [MusicObject.Note "C" None 2 40] /\
  parse_music "C2-D2"
  = Ok [MusicObject.Note "C" None 2 40; MusicObject.Note "D" None 2 42] /\
  parse_music "z3-z" = Ok [MusicObject.Rest 4] /\
  parse_music "[C2-C2 E]"
  = Ok [MusicObject.Note "C" None 0 40; MusicObject.Note "E" None 0 44].
Proof.
  split; [|repeat split; reflexivity].
  intros st m1 st1 m2 b H1 Hb.
  destruct (exists_last (step_nonempty st st1 m1 H1)) as [front [a E]].
  destruct (step_flags st st1 m1 H1) as [T C].
  destruct st1 as [music1 tie1 chord1]. cbn [music detect_tie detect_chord] in *.
  subst music1. exists front, a. eexists.
  split; [reflexivity|]. split; [apply (step_round front a b _ _ m2 Hb)|].
  split; [exact C|]. cbn [music]. rewrite T.
  split; [|split].
  - intros Hm Hn. apply String.eqb_neq in Hm. apply String.eqb_eq in Hn.
    rewrite Hm, Hn. reflexivity.
  - intros Hm Hn. apply String.eqb_neq in Hn. rewrite Hn, andb_false_r.
    reflexivity.
  - intros Hm. rewrite Hm. reflexivity.
Qed.

Lemma tie_folding_witness :
  exists st2,
    step (mk_scan [MusicObject.Rest 1; MusicObject.Note "C" None 2 40]
            true false) (Match.mk "" "" "C" "3" "" "")
    = Ok st2 /\
    music st2 = [MusicObject.Rest 1; MusicObject.Note "C" None 5 40].
Proof.
  destruct (proj1 tie_folding
              (mk_scan [MusicObject.Rest 1] false false)
              (Match.mk "" "" "C" "2" "" "-")
              (mk_scan [MusicObject.Rest 1; MusicObject.Note "C" None 2 40]
                 true false)
              (Match.mk "" "" "C" "3" "" "")
              (MusicObject.Note "C" None 3 40) eq_refl eq_refl)
    as [front [a [st2 [E [H [_ [M _]]]]]]].
  cbn [music] in E.
  assert (front = [MusicObject.Rest 1] /\ a = MusicObject.Note "C" None 2 40)
    as [-> ->].
  { change [MusicObject.Rest 1; MusicObject.Note "C" None 2 40]
      with ([MusicObject.Rest 1] ++ [MusicObject.Note "C" None 2 40]) in E.
    apply app_inj_tail in E. destruct E as [<- <-]. split; reflexivity. }
  exists st2. split; [exact H|].
  apply M; [discriminate | reflexivity].
Defined.

(** ** Durations: from the digit to the event *)

Lemma make_object_written (m : Match.t) (o : MusicObject.t) :
  make_object m = Ok o ->
  (Match.duration m = "" -> MusicObject.duration o = 1) /\
  (forall c, Match.duration m = String c "" ->
     is_digit c = true /\ MusicObject.duration o = digit_value c).
Proof.
  intros H. pose proof (make_object_beats m o H) as Hb. unfold beats in Hb.
  assert (exists z, MusicObject.__init__ (Match.duration m) = Ok z) as [z Hz].
  { unfold make_object, Rest.__init__, Note.__init__ in H.
    destruct (MusicObject.__init__ (Match.duration m)) as [z|e];
      [exists z; reflexivity|].
    destruct (str_in (lower (Match.name m)) ["z"; "x"]); discriminate. }
  rewrite Hz in Hb. split.
  - intros E. rewrite E in Hz. cbn in Hz. congruence.
  - intros c E. rewrite E in Hz. unfold MusicObject.__init__ in Hz.
    simpl in Hz. destruct (is_digit c); [|discriminate].
    split; [reflexivity|]. rewrite Z.add_0_l in Hz || idtac. congruence.
Qed.

Lemma step_positive_open (st st' : scan) (m : Match.t) :
  digit_or_empty (Match.duration m) -> Match.duration m <> "0" ->
  detect_chord st = false ->
  durations_from 1 (music st) -> step st m = Ok st' ->
  durations_from 1 (music st').
Proof.
  intros Hd Hz Hch Hall H. unfold step in H.
  apply bind_ok in H. destruct H as [o [Ho H]].
  apply bind_ok in H. destruct H as [music2 [H2 H]].
  destruct (make_object_duration m o Hd Ho) as [_ Hpos].
  assert (durations_from 1 (music st ++ [o])) as H1.
  { apply Forall_app. split; [exact Hall|].
    constructor; [exact (Hpos Hz)|constructor]. }
  rewrite Hch in H. inversion H; subst; cbn [music].
  destruct (detect_tie st).
  - apply (tie_fold_bound 1 _ _ ltac:(lia) H1 H2).
  - inversion H2; subst. exact H1.
Qed.

Lemma scan_positive_open (ms : list Match.t) (st st' : scan) :
  Forall (fun m => digit_or_empty (Match.duration m)) ms ->
  Forall (fun m => Match.duration m <> "0") ms ->
  Forall (fun c => c = false) (read_in_chord (detect_chord st) ms) ->
  durations_from 1 (music st) -> foldM step ms st = Ok st' ->
  durations_from 1 (music st').
Proof.
  revert st. induction ms as [|m ms IH]; intros st Hms Hz Hc Hall H.
  - inversion H; subst. exact Hall.
  - cbn [foldM] in H. apply bind_ok in H. destruct H as [st1 [H1 H]].
    inversion Hms; subst. inversion Hz; subst.
    cbn [read_in_chord] in Hc. inversion Hc as [|? ? Hopen Hc']; subst.
    apply (IH st1); try assumption.
    + rewrite (proj2 (step_flags st st1 m H1)). exact Hc'.
    + apply (step_positive_open st st1 m); assumption.
Qed.

(** The event a token read with no chord open leaves at the end of the
    list. *)
Lemma step_last_positive (st st' : scan) (m : Match.t) :
  digit_or_empty (Match.duration m) -> Match.duration m <> "0" ->
  detect_chord st = false ->
  durations_from 0 (music st) -> step st m = Ok st' ->
  exists front last,
    music st' = front ++ [last] /\ 1 <= MusicObject.duration last.
Proof.
  intros Hd Hz Hch Hall H.
  destruct (make_object m) as [o|e] eqn:Ho;
    [|unfold step in H; rewrite Ho in H; discriminate].
  destruct (make_object_duration m o Hd Ho) as [_ Hpos]. specialize (Hpos Hz).
  destruct st as [music0 tie chord]. cbn [music detect_chord] in *. subst chord.
  destruct music0 as [|x t].
  - unfold step in H. rewrite Ho in H. cbn [bind music detect_tie detect_chord] in H.
    destruct tie; [discriminate|]. inversion H; subst.
    exists [], o. split; [reflexivity | exact Hpos].
  - destruct (exists_last (l := x :: t) ltac:(discriminate)) as [front [a E]].
    rewrite E in H, Hall. rewrite (step_round front a o tie false m Ho) in H.
    inversion H; subst. cbn [music zero_if].
    apply Forall_app in Hall. destruct Hall as [_ Ha].
    inversion Ha as [|? ? Da _]; subst.
    destruct (tie && String.eqb (MusicObject.name a) (MusicObject.name o)).
    + eexists. eexists. split; [reflexivity|].
      rewrite set_duration_duration. lia.
    + exists (front ++ [a]), o. split; [|exact Hpos].
      rewrite <- app_assoc. reflexivity.
Qed.

(** C7, as the design document states it, fails twice. The digit of a
    token may be 0, and then the event has duration 0 with no chord
    around. And the chord of the text and the chord of the loop are not
    the same: in [[C] D E] the closing bracket stands on the token that
    opens the chord and is not looked at, so D and E, after the bracket
    and without a digit, are read with the chord open and get
    duration 0. *)
Lemma zero_duration_outside_chord :
  Forall (fun m => Match.chord_start m = "")
    (finditer (strip_decorators "C0")) /\
  parse_music "C0" = Ok [MusicObject.Note "C" None 0 40] /\
  ~ durations_from 1 [MusicObject.Note "C" None 0 40] /\
  parse_music "[C] D E"
  = Ok [MusicObject.Note "C" None 1 40; MusicObject.Note "D" None 0 42;
        MusicObject.Note "E" None 0 44].
Proof.
  split; [repeat constructor|]. split; [reflexivity|]. split; [|reflexivity].
  intros H. inversion H as [|? ? D _]; subst. simpl in D. lia.
Qed.

(** C7, amended. The event made for a token has duration 1 when the
    token has no digit and duration d when it has the digit d, from 0 to
    9. In every body that is read no event has a negative duration. A
    chord is open after a token with an opening bracket read while none
    is open, until after a later token with a closing bracket. A token
    whose digit is not 0 and that is read while no chord is open leaves
    at the end of the list an event, its own or the one a tie merged it
    into, of duration at least 1. In a body without ties the event of a
    token has duration 0 when the token is read while a chord is open
    and the written duration otherwise. And in a body in which no token
    has the digit 0 and none is read while a chord is open, every event
    has a duration of at least 1. *)
Theorem durations_of_events :
  (forall m o,
     make_object m = Ok o ->
     (Match.duration m = "" -> MusicObject.duration o = 1) /\
     (forall c, Match.duration m = String c "" ->
        is_digit c = true /\
        MusicObject.duration o = digit_value c /\
        0 <= digit_value c <= 9 /\
        (c <> "0"%char -> 1 <= digit_value c))) /\
  (forall content music0,
     parse_music content = Ok music0 -> durations_from 0 music0) /\
  (forall ms st,
     scan_matches ms = Ok st -> detect_chord st = chord_open ms) /\
  (forall content pre m post st st',
     finditer (strip_decorators content) = pre ++ m :: post ->
     scan_matches pre = Ok st -> step st m = Ok st' ->
     chord_open pre = false -> Match.duration m <> "0" ->
     exists front last,
       music st' = front ++ [last] /\ 1 <= MusicObject.duration last) /\
  (forall content music0,
     Forall (fun m => Match.tie m = "") (finditer (strip_decorators content)) ->
     parse_music content = Ok music0 ->
     map MusicObject.duration music0
     = chord_durations false (finditer (strip_decorators content))) /\
  (forall content music0,
     Forall (fun m => Match.duration m <> "0")
       (finditer (strip_decorators content)) ->
     Forall (fun c => c = false)
       (read_in_chord false (finditer (strip_decorators content))) ->
     parse_music content = Ok music0 -> durations_from 1 music0).
Proof.
  split; [|split; [|split; [|split; [|split]]]].
  - intros m o H. destruct (make_object_written m o H) as [H1 H2].
    split; [exact H1|]. intros c E. destruct (H2 c E) as [Hc Hd].
    split; [exact Hc|]. split; [exact Hd|]. apply digit_value_range. exact Hc.
  - intros content music0 H. unfold parse_music in H.
    apply bind_ok in H. destruct H as [st [Hs H]]. inversion H; subst.
    apply (scan_nonnegative _ (mk_scan [] false false) st
             (finditer_from_duration (strip_decorators content) 0));
      [constructor | exact Hs].
  - intros ms st H. apply (scan_chord_state ms _ st H).
  - intros content pre m post st st' E Hs H Hopen Hz.
    pose proof (finditer_from_duration (strip_decorators content) 0) as Hd.
    unfold finditer in E. rewrite E in Hd.
    apply Forall_app in Hd. destruct Hd as [Hpre Hm].
    inversion Hm as [|? ? Hm' _]; subst.
    apply (step_last_positive st st' m Hm' Hz); [| |exact H].
    + rewrite (scan_chord_state pre _ st Hs). exact Hopen.
    + apply (scan_nonnegative pre (mk_scan [] false false) st Hpre);
        [constructor | exact Hs].
  - intros content music0 Hfree H. unfold parse_music in H.
    apply bind_ok in H. destruct H as [st [Hs H]]. inversion H; subst.
    apply (scan_tie_free _ (mk_scan [] false false) st Hfree eq_refl Hs).
  - intros content music0 Hz Hc H. unfold parse_music in H.
    apply bind_ok in H. destruct H as [st [Hs H]]. inversion H; subst.
    apply (scan_positive_open _ (mk_scan [] false false) st
             (finditer_from_duration (strip_decorators content) 0) Hz Hc);
      [constructor | exact Hs].
Qed.

Lemma durations_of_events_witness :
  (exists front last,
     [MusicObject.Note "C" None 1 40; MusicObject.Note "E" None 0 44;
      MusicObject.Note "G" None 5 47] = front ++ [last] /\
     1 <= MusicObject.duration last) /\
  map MusicObject.duration
    [MusicObject.Note "C" None 1 40; MusicObject.Note "E" None 0 44;
     MusicObject.Note "G" None 3 47]
  = [1; 0; 3] /\
  durations_from 1 [MusicObject.Note "C" None 5 40; MusicObject.Rest 1;
                    MusicObject.Note "D" None 1 42].
Proof.
  split; [|split].
  - apply (proj1 (proj2 (proj2 (proj2 durations_of_events)))
             "[C E]-G2-G3"
             [Match.mk "[" "" "C" "" "" ""; Match.mk "" "" "E" "" "]" "-";
              Match.mk "" "" "G" "2" "" "-"]
             (Match.mk "" "" "G" "3" "" "") []
             (mk_scan [MusicObject.Note "C" None 1 40;
                       MusicObject.Note "E" None 0 44;
                       MusicObject.Note "G" None 2 47] true false)
             (mk_scan [MusicObject.Note "C" None 1 40;
                       MusicObject.Note "E" None 0 44;
                       MusicObject.Note "G" None 5 47] false false));
      try reflexivity.
    discriminate.
  - apply (proj1 (proj2 (proj2 (proj2 (proj2 durations_of_events))))
             "[C E] G3").
    + repeat constructor.
    + reflexivity.
  - apply (proj2 (proj2 (proj2 (proj2 (proj2 durations_of_events))))
             "C3-C2 z [D").
    + simpl. repeat constructor; discriminate.
    + simpl. repeat constructor.
    + reflexivity.
Defined.

(** ** Runs of accidental marks, anywhere in a body *)

Lemma take_if_append (p : ascii -> bool) (s : string) (b : ascii)
  (t : string) :
  p b = false ->
  take_if p (s ++ String b t)%string
  = (fst (take_if p s), (snd (take_if p s) ++ String b t)%string).
Proof.
  intros Hb. destruct s as [|c s']; simpl.
  - rewrite Hb. reflexivity.
  - destruct (p c); reflexivity.
Qed.

Lemma take_while_append_stop (p : ascii -> bool) (s acc r B : string)
  (x : ascii) :
  take_while p s = (acc, String x r) ->
  take_while p (s ++ B)%string = (acc, (String x r ++ B)%string).
Proof.
  revert acc. induction s as [|c t IH]; intros acc H; simpl in H.
  - discriminate.
  - simpl. destruct (p c) eqn:E.
    + destruct (take_while p t) as [a' r'] eqn:Et. inversion H; subst.
      rewrite (IH a' eq_refl). reflexivity.
    + inversion H; subst. reflexivity.
Qed.

Lemma take_while_stop (p : ascii -> bool) (s acc r : string) (x : ascii) :
  take_while p s = (acc, String x r) -> p x = false.
Proof.
  revert acc. induction s as [|c t IH]; intros acc H; simpl in H.
  - discriminate.
  - destruct (p c) eqn:E.
    + destruct (take_while p t) as [a' r'] eqn:Et. inversion H; subst.
      apply (IH a' eq_refl).
    + inversion H; subst. exact E.
Qed.

Lemma take_while_marks (marks : string) (l : ascii) (rest : string) :
  all_chars is_accidental_mark marks = true -> is_alpha l = true ->
  take_while is_accidental_mark (marks ++ String l rest)%string
  = (marks, String l rest).
Proof.
  intros Hm Hl. apply take_while_run; [exact Hm|].
  destruct (is_accidental_mark l) eqn:E; [|reflexivity].
  rewrite (mark_not_alpha l E) in Hl. discriminate.
Qed.

Lemma all_chars_append (p : ascii -> bool) (a b : string) :
  all_chars p a = true -> all_chars p b = true ->
  all_chars p (a ++ b)%string = true.
Proof.
  intros Ha Hb. induction a as [|c t IH]; simpl; [exact Hb|].
  simpl in Ha. apply andb_true_iff in Ha. destruct Ha as [Hc Ht].
  rewrite Hc, (IH Ht). reflexivity.
Qed.

Lemma append_empty (a : string) : (a ++ "")%string = a.
Proof. induction a as [|c t IH]; simpl; [reflexivity|]. rewrite IH. reflexivity. Qed.

Lemma append_cancel (a x y : string) :
  (a ++ x)%string = (a ++ y)%string -> x = y.
Proof.
  induction a as [|c t IH]; simpl; intros H; [exact H|].
  inversion H. apply IH. assumption.
Qed.

(** The suffix of a match does not reach into a run of marks. *)
Lemma match_at_append (s : string) (m : Match.t) (b : ascii) (t : string) :
  is_accidental_mark b = true ->
  match_at s = Some m -> match_at (s ++ String b t)%string = Some m.
Proof.
  intros Hb. destruct (mark_facts b Hb) as [_ [_ [Hd Hbr]]].
  assert (is_octave_mark b = false) as Ho.
  { destruct (is_octave_mark b) eqn:E; [|reflexivity].
    unfold is_accidental_mark in Hb. unfold is_octave_mark in E.
    apply orb_true_iff in E. destruct E as [E|E]; apply Ascii.eqb_eq in E;
      subst b; discriminate Hb. }
  assert (is_digit b = false) as Hg.
  { destruct (is_digit b) eqn:E; [|reflexivity].
    unfold is_accidental_mark in Hb.
    apply orb_true_iff in Hb. destruct Hb as [Hb|Hb];
      [apply orb_true_iff in Hb; destruct Hb as [Hb|Hb]|];
      apply Ascii.eqb_eq in Hb; subst b; discriminate E. }
  assert (Ascii.eqb "]" b = false) as Hc.
  { destruct (Ascii.eqb "]" b) eqn:E; [|reflexivity].
    apply Ascii.eqb_eq in E. subst b. discriminate Hb. }
  assert (Ascii.eqb "-" b = false) as Ht.
  { rewrite Ascii.eqb_sym. exact Hd. }
  unfold match_at. rewrite (take_if_append _ s b t Hbr).
  destruct (take_if (Ascii.eqb "[") s) as [cs s1]. cbn [fst snd].
  destruct (take_while is_accidental_mark s1) as [acc s2] eqn:E1.
  destruct s2 as [|l s3]; [discriminate|].
  rewrite (take_while_append_stop _ _ _ _ (String b t) _ E1).
  cbn [String.append].
  destruct (is_alpha l); [|discriminate].
  rewrite (take_if_append _ s3 b t Ho).
  destruct (take_if is_octave_mark s3) as [oct s4]. cbn [fst snd].
  rewrite (take_if_append _ s4 b t Hg).
  destruct (take_if is_digit s4) as [dur s5]. cbn [fst snd].
  rewrite (take_if_append _ s5 b t Hc).
  destruct (take_if (Ascii.eqb "]") s5) as [ce s6]. cbn [fst snd].
  rewrite (take_if_append _ s6 b t Ht).
  destruct (take_if (Ascii.eqb "-") s6) as [ti s7]. cbn [fst snd].
  intros H. exact H.
Qed.

(** Where a text has no match at its start, the text followed by a run
    of marks and a letter has none either, unless the text is a bracket
    and marks only: then the match takes them with the run. *)
Lemma match_at_before_run (c : ascii) (t run : string) (l : ascii)
  (rest : string) :
  all_chars is_accidental_mark run = true -> is_alpha l = true ->
  match_at (String c t) = None ->
  match_at (String c t ++ run ++ String l rest)%string = None \/
  (count_if is_alpha (String c t) = O /\
   exists m extra octave,
     match_at (String c t ++ run ++ String l rest)%string = Some m /\
     Match.accidentals m = (extra ++ run)%string /\
     Match.name m = String l octave).
Proof.
  intros Hrun Hl H. unfold match_at in H |- *.
  assert (take_if (Ascii.eqb "[") (String c t ++ run ++ String l rest)%string
          = (fst (take_if (Ascii.eqb "[") (String c t)),
             (snd (take_if (Ascii.eqb "[") (String c t))
              ++ run ++ String l rest)%string)) as ->.
  { cbn [take_if String.append].
    destruct (Ascii.eqb "[" c); reflexivity. }
  destruct (take_if (Ascii.eqb "[") (String c t)) as [cs s1] eqn:E0.
  cbn [fst snd].
  destruct (take_while is_accidental_mark s1) as [acc s2] eqn:E1.
  destruct (take_if_spec _ _ _ _ E0) as [S0 W0].
  destruct (take_while_spec _ _ _ _ E1) as [S1 W1].
  destruct s2 as [|x r].
  - right. rewrite append_empty in S1. subst s1. split.
    + rewrite S0, count_if_append.
      rewrite (at_most_one_no_alpha _ _
                 (fun c0 => other_not_alpha "[" c0 eq_refl) W0).
      rewrite (all_chars_no_alpha _ _ mark_not_alpha W1). reflexivity.
    + rewrite <- append_assoc.
      rewrite (take_while_marks (acc ++ run) l rest
                 (all_chars_append _ _ _ W1 Hrun) Hl), Hl.
      destruct (take_if is_octave_mark rest) as [oct s4].
      destruct (take_if is_digit s4) as [dur s5].
      destruct (take_if (Ascii.eqb "]") s5) as [ce s6].
      destruct (take_if (Ascii.eqb "-") s6) as [ti s7].
      eexists. exists acc, oct. split; [reflexivity|]. split; reflexivity.
  - left.
    rewrite (take_while_append_stop _ _ _ _ (run ++ String l rest) _ E1).
    cbn [String.append].
    destruct (is_alpha x); [|reflexivity]. exfalso.
    destruct (take_if is_octave_mark r) as [oct s4].
    destruct (take_if is_digit s4) as [dur s5].
    destruct (take_if (Ascii.eqb "]") s5) as [ce s6].
    destruct (take_if (Ascii.eqb "-") s6) as [ti s7].
    discriminate H.
Qed.

Lemma match_at_run_any (r0 : ascii) (run : string) (l : ascii)
  (rest : string) :
  all_chars is_accidental_mark (String r0 run) = true -> is_alpha l = true ->
  exists m octave,
    match_at (String r0 run ++ String l rest)%string = Some m /\
    Match.accidentals m = String r0 run /\
    Match.name m = String l octave.
Proof.
  intros Hrun Hl.
  assert (Ascii.eqb "[" r0 = false) as Hb.
  { simpl in Hrun. apply andb_true_iff in Hrun. destruct Hrun as [Hc _].
    apply (mark_facts r0 Hc). }
  unfold match_at.
  change (String r0 run ++ String l rest)%string
    with (String r0 (run ++ String l rest)%string).
  cbn [take_if]. rewrite Hb.
  change (String r0 (run ++ String l rest)%string)
    with (String r0 run ++ String l rest)%string.
  rewrite (take_while_marks _ l rest Hrun Hl), Hl.
  destruct (take_if is_octave_mark rest) as [octave s4].
  destruct (take_if is_digit s4) as [duration s5].
  destruct (take_if (Ascii.eqb "]") s5) as [chord_end s6].
  destruct (take_if (Ascii.eqb "-") s6) as [tie s7].
  eexists. exists octave. split; [reflexivity|]. split; reflexivity.
Qed.

Lemma finditer_starts (s : string) (m : Match.t) :
  match_at s = Some m -> exists post, finditer_from 0 s = m :: post.
Proof.
  intros H. destruct s as [|c t]; [discriminate|].
  cbn [finditer_from]. rewrite H. eexists. reflexivity.
Qed.

(** The matches of a text that goes on with a run of marks and a letter:
    those of the text, then the match of the letter, whose accidentals
    end in the run. *)
Lemma finditer_before_run (n : nat) (A : string) (r0 : ascii)
  (run : string) (l : ascii) (rest : string) :
  all_chars is_accidental_mark (String r0 run) = true -> is_alpha l = true ->
  (String.length A <= n)%nat ->
  exists m post extra octave,
    finditer_from 0 (A ++ String r0 run ++ String l rest)%string
    = finditer_from 0 A ++ m :: post /\
    Match.accidentals m = (extra ++ String r0 run)%string /\
    Match.name m = String l octave /\
    digit_or_empty (Match.duration m).
Proof.
  intros Hrun Hl. revert A. induction n as [|n IH]; intros A Hlen.
  - destruct A; [|simpl in Hlen; lia].
    destruct (match_at_run_any r0 run l rest Hrun Hl) as [m [oct [Hm [Ha Hn]]]].
    destruct (finditer_starts _ m Hm) as [post Hp].
    exists m, post, EmptyString, oct. cbn [String.append] in Hp |- *.
    split; [exact Hp|]. split; [exact Ha|]. split; [exact Hn|].
    apply (match_at_duration _ _ Hm).
  - destruct A as [|c t].
    + apply (IH EmptyString). simpl. lia.
    + simpl in Hlen. destruct (match_at (String c t)) as [mA|] eqn:E.
      * destruct (finditer_after_match c t mA E) as [restA [Es Ef]].
        assert (is_accidental_mark r0 = true) as Hr0.
        { simpl in Hrun. apply andb_true_iff in Hrun. apply Hrun. }
        pose proof (match_at_append _ mA r0 (run ++ String l rest) Hr0 E) as E'.
        change (String c t ++ String r0 (run ++ String l rest))%string
          with (String c (t ++ String r0 run ++ String l rest)%string) in E'.
        destruct (finditer_after_match c _ mA E') as [rest' [Es' Ef']].
        assert (rest' = (restA ++ String r0 run ++ String l rest)%string) as ->.
        { apply (append_cancel (matched_text mA)). rewrite <- Es'.
          change (String c (t ++ String r0 run ++ String l rest)%string)
            with (String c t ++ String r0 run ++ String l rest)%string.
          rewrite Es, append_assoc. reflexivity. }
        assert (String.length restA <= n)%nat as Hn.
        { destruct (match_at_spec _ _ E) as [W _].
          pose proof (matched_text_one_letter mA W) as Hone.
          apply (f_equal String.length) in Es. rewrite length_append in Es.
          destruct (matched_text mA); [discriminate Hone|].
          simpl in Es. lia. }
        destruct (IH restA Hn) as [m [post [extra [oct [Hf [Ha [Hnm Hd]]]]]]].
        exists m, post, extra, oct.
        change ((String c t ++ String r0 run ++ String l rest)%string)
          with (String c (t ++ String r0 run ++ String l rest)%string).
        rewrite Ef', Ef, Hf. split; [reflexivity|].
        split; [exact Ha|]. split; [exact Hnm | exact Hd].
      * assert (finditer_from 0 (String c t) = finditer_from 0 t) as Ft.
        { cbn [finditer_from]. rewrite E. reflexivity. }
        destruct (match_at_before_run c t (String r0 run) l rest Hrun Hl E)
          as [N|[Hz [m [extra [oct [Hm [Ha Hnm]]]]]]].
        -- destruct (IH t ltac:(lia)) as [m [post [extra [oct [Hf [Ha [Hnm Hd]]]]]]].
           exists m, post, extra, oct.
           change ((String c t ++ String r0 run ++ String l rest)%string)
             with (String c (t ++ String r0 run ++ String l rest)%string) in N |- *.
           cbn [finditer_from]. rewrite N, E. fold (finditer_from 0 t).
           split; [exact Hf|]. split; [exact Ha|]. split; [exact Hnm | exact Hd].
        -- destruct (finditer_starts _ m Hm) as [post Hp].
           exists m, post, extra, oct.
           assert (finditer_from 0 (String c t) = []) as ->.
           { apply length_zero_iff_nil.
             rewrite (finditer_count _ _ (Nat.le_refl _)). exact Hz. }
           split; [exact Hp|]. split; [exact Ha|]. split; [exact Hnm|].
           apply (match_at_duration _ _ Hm).
Qed.

Lemma foldM_app {A B : Type} (f : A -> B -> result A) (a b : list B) (x : A) :
  foldM f (a ++ b) x = bind (foldM f a x) (foldM f b).
Proof.
  revert x. induction a as [|y a IH]; intros x; [reflexivity|].
  cbn [app foldM]. destruct (f x y) as [x'|e]; [apply IH | reflexivity].
Qed.

Lemma index_not_in (l : ascii) (table : list ascii) :
  existsb (Ascii.eqb l) table = false ->
  Note.index l table = Raise (ValueError "is not in list").
Proof.
  induction table as [|x r IH]; simpl; intros H; [reflexivity|].
  apply orb_false_iff in H. destruct H as [Hx Hr].
  rewrite Ascii.eqb_sym, Hx, (IH Hr). reflexivity.
Qed.

Lemma not_rest_name (l : ascii) (octave : string) :
  lower_char l <> "z"%char -> lower_char l <> "x"%char ->
  str_in (lower (String l octave)) ["z"; "x"] = false.
Proof.
  intros Hz Hx. apply Ascii.eqb_neq in Hz, Hx.
  unfold str_in, lower. cbn [map_string existsb String.eqb].
  rewrite Hz, Hx. reflexivity.
Qed.

Lemma make_object_long_run (m : Match.t) (l : ascii) (octave : string) :
  (2 <= String.length (Match.accidentals m))%nat ->
  Match.name m = String l octave ->
  str_in (lower (Match.name m)) ["z"; "x"] = false ->
  digit_or_empty (Match.duration m) ->
  make_object m = Raise (run_error l).
Proof.
  intros Hlen Hname Hrest Hd. unfold run_error.
  destruct (in_table l) eqn:Et.
  - apply (make_object_run m l octave Hlen Hname);
      [apply in_table_iff; exact Et | exact Hd].
  - destruct (init_duration _ Hd) as [z [Hz _]].
    unfold make_object. rewrite Hrest, Hname.
    unfold Note.__init__. rewrite Hz. cbn [bind].
    unfold Note._update_value, Note.compute_value.
    unfold in_table in Et. rewrite (index_not_in l _ Et). reflexivity.
Qed.

(** C10, as stated, fails for a letter outside the pitch table: the run
    [^^] before H is matched as one accidental text, but the lookup of
    the letter comes before the read of the accidental's value and
    raises a ValueError, not an AttributeError. *)
Lemma accidental_run_value_error :
  finditer (strip_decorators "^^H") = [Match.mk "" "^^" "H" "" "" ""] /\
  parse_music "^^H" = Raise (ValueError "is not in list") /\
  parse_music "^^H" <> Raise (AttributeError "value").
Proof. split; [reflexivity|]. split; [reflexivity | discriminate]. Qed.

(** C10, amended. An Accidental built from a text other than the three
    marks has no [value]. A run of two or more marks before a letter is
    matched whole, as one accidental text. An event for a match with a
    run of two or more marks that is not a rest is never made: building
    the Note raises the AttributeError of the missing value when the
    letter is one of the fourteen of the pitch table, and the ValueError
    of the lookup when it is not; the round of the loop raises the same,
    whatever was read before. So a body stops there wherever the run
    stands in it, if what comes before it is read: after any text, the
    marks at the end of that text are taken into the run. *)
Theorem accidental_run_fails :
  (forall s, s <> "^" -> s <> "=" -> s <> "_" ->
     Accidental.value (Accidental.__init__ s) = None /\
     Accidental.get_value (Accidental.__init__ s)
     = Raise (AttributeError "value")) /\
  (forall run l rest,
     all_chars is_accidental_mark run = true ->
     (2 <= String.length run)%nat -> is_alpha l = true ->
     exists m octave,
       match_at (run ++ String l rest)%string = Some m /\
       Match.accidentals m = run /\ Match.name m = String l octave) /\
  (forall m l octave st,
     (2 <= String.length (Match.accidentals m))%nat ->
     Match.name m = String l octave ->
     str_in (lower (Match.name m)) ["z"; "x"] = false ->
     digit_or_empty (Match.duration m) ->
     make_object m = Raise (run_error l) /\
     step st m = Raise (run_error l)) /\
  (forall content before run l rest,
     strip_decorators content = (before ++ run ++ String l rest)%string ->
     all_chars is_accidental_mark run = true ->
     (2 <= String.length run)%nat -> is_alpha l = true ->
     lower_char l <> "z"%char -> lower_char l <> "x"%char ->
     Forall (fun m => playable m = true) (finditer before) ->
     parse_music content = Raise (run_error l)) /\
  parse_music "^^C" = Raise (AttributeError "value") /\
  parse_music "C2 D | _=e'3 f" = Raise (AttributeError "value") /\
  parse_music "^^H" = Raise (ValueError "is not in list").
Proof.
  split; [|split; [|split; [|split; [|repeat split; reflexivity]]]].
  - intros s H1 H2 H3. unfold Accidental.get_value.
    rewrite (accidental_unassigned s H1 H2 H3). split; reflexivity.
  - intros run l rest Hrun Hlen Hl.
    destruct run as [|r0 run]; [simpl in Hlen; lia|].
    apply (match_at_run_any r0 run l rest Hrun Hl).
  - intros m l octave st Hlen Hname Hrest Hd.
    pose proof (make_object_long_run m l octave Hlen Hname Hrest Hd) as Hm.
    split; [exact Hm|]. unfold step. rewrite Hm. reflexivity.
  - intros content before run l rest Hs Hrun Hlen Hl Hz Hx Hp.
    destruct run as [|r0 run]; [simpl in Hlen; lia|].
    destruct (finditer_before_run _ before r0 run l rest Hrun Hl
                (Nat.le_refl _))
      as [m [post [extra [oct [Hf [Ha [Hn Hd]]]]]]].
    unfold parse_music, scan_matches, finditer. rewrite Hs, Hf, foldM_app.
    destruct (scan_outcome (finditer before) (mk_scan [] false false)
                initial_scan
                (finditer_from_all well_formed _ 0
                   (fun t m0 H => proj1 (match_at_spec t m0 H))))
      as [I1 _].
    destruct (I1 Hp) as [st Hst]. unfold finditer in Hst. rewrite Hst.
    cbn [bind foldM]. unfold step at 1.
    rewrite (make_object_long_run m l oct); try assumption.
    + reflexivity.
    + rewrite Ha, length_append. lia.
    + rewrite Hn. apply not_rest_name; assumption.
Qed.

Lemma accidental_run_fails_witness :
  Accidental.value (Accidental.__init__ "^^") = None /\
  (exists m octave,
     match_at "_=^e'3]-" = Some m /\
     Match.accidentals m = "_=^" /\ Match.name m = String "e" octave) /\
  parse_music "C2 [^z _^Hb" = Raise (ValueError "is not in list").
Proof.
  split; [|split].
  - apply (proj1 accidental_run_fails "^^"); discriminate.
  - apply (proj1 (proj2 accidental_run_fails) "_=^" "e"%char "'3]-").
    + reflexivity.
    + simpl. lia.
    + reflexivity.
  - apply (proj1 (proj2 (proj2 (proj2 accidental_run_fails)))
             "C2 [^z _^Hb" "C2 [^z " "_^" "H"%char "b").
    + reflexivity.
    + reflexivity.
    + simpl. lia.
    + reflexivity.
    + discriminate.
    + discriminate.
    + repeat constructor.
Defined.
